(** * PartDesign::Revolution (src/Mod/PartDesign/App/FeatureRevolution.cpp)

    A shallow embedding of the revolution feature: its properties, the
    axis update, the direction suggestion and [execute], over an abstract
    geometry kernel.  C++ [double]s are binary64 primitive floats; the
    control flow of [execute] ([return], [throw], the [catch] clauses) is
    an explicit flow monad over the feature and the list of revolve
    operations issued to the kernel. *)

From Stdlib Require Import PrimFloat ZArith List String Ascii Bool.
Import ListNotations.

Set Implicit Arguments.

Open Scope string_scope.
Open Scope list_scope.
Open Scope float_scope.

(** ** Numbers *)

(** Modelled from the spec: [M_PI], the binary64 nearest to pi
    (3.14159265358979323846), used by [Base::toRadians] of Base/Tools.h,
    which is not part of this file. *)
Definition M_PI : float := 0x1.921fb54442d18p+1.

(** Modelled from the spec: [Base::toRadians] (Base/Tools.h), the
    "radians(Angle)" of the spec: degrees times pi over 180. *)
Definition toRadians (d : float) : float := (d * M_PI) / 180.

(** Modelled from the spec: [Precision::Angular()], the kernel's angular
    precision constant ("kAngularEpsilon"), 1e-12 in the geometry kernel:
    the binary64 nearest to it. *)
Definition Precision_Angular : float := 0x1.19799812dea11p-40.

(** [Base::Vector3d]. *)
Record Vector3d : Type := mkVector3d { x : float; y : float; z : float }.

(** ** The revolution type, [Revolution::TypeEnums] (line 46) *)

Module Method.
Inductive t : Type := Angle | UpToLast | UpToFirst | UpToFace | TwoAngles.

Definition getValueAsString (m : t) : string :=
  match m with
  | Angle => "Angle"
  | UpToLast => "UpToLast"
  | UpToFirst => "UpToFirst"
  | UpToFace => "UpToFace"
  | TwoAngles => "TwoAngles"
  end.

Definition eqb (a b : t) : bool :=
  match a, b with
  | Angle, Angle | UpToLast, UpToLast | UpToFirst, UpToFirst
  | UpToFace, UpToFace | TwoAngles, TwoAngles => true
  | _, _ => false
  end.
End Method.

(** ** The geometry kernel

    The carriers and the total operations of the kernel that [execute]
    uses.  Faces are shapes ([TopoDS_Face] derives from [TopoDS_Shape]). *)

Class Kernel : Type := {
  TopoDS_Shape : Type;
  gp_Pnt : Type;
  gp_Dir : Type;
  gp_Trsf : Type;
  TopLoc_Location : Type;
  Placement_t : Type;                 (* Base::Placement *)
  DocumentObject : Type;              (* App::DocumentObject* targets *)
  (* TopoDS_Shape() and IsNull *)
  NullShape : TopoDS_Shape;
  IsNull : TopoDS_Shape -> bool;
  IsNull_NullShape : IsNull NullShape = true;
  (* gp_Pnt(x,y,z), gp_Dir(x,y,z) *)
  mk_Pnt : float -> float -> float -> gp_Pnt;
  mk_Dir : float -> float -> float -> gp_Dir;
  (* gp_Trsf::SetRotation(gp_Ax1(pnt, dir), angle) *)
  SetRotation : gp_Pnt -> gp_Dir -> float -> gp_Trsf;
  (* TopLoc_Location(gp_Trsf), Inverted(), Transformation() *)
  Location : gp_Trsf -> TopLoc_Location;
  Inverted : TopLoc_Location -> TopLoc_Location;
  Transformation : TopLoc_Location -> gp_Trsf;
  Pnt_Transform : gp_Pnt -> gp_Trsf -> gp_Pnt;
  Dir_Transform : gp_Dir -> gp_Trsf -> gp_Dir;
  (* TopoDS_Shape::Move *)
  Move : TopoDS_Shape -> TopLoc_Location -> TopoDS_Shape;
  (* the faces a TopExp_Explorer(shape, TopAbs_FACE) visits, in order *)
  faces : TopoDS_Shape -> list TopoDS_Shape;
  (* checkLineCrossesFace(gp_Lin(pnt, dir), face) *)
  checkLineCrossesFace : gp_Pnt -> gp_Dir -> TopoDS_Shape -> bool;
  (* Part::Feature::getLocation(), read off the Placement property *)
  getLocation : Placement_t -> TopLoc_Location
}.

(** ** Exceptions and results *)

(** An exception raised by a collaborator: the kernel's
    [Standard_Failure] or a [Base::Exception] of a helper, with its
    message. *)
Inductive fault : Type :=
| Standard_Failure (GetMessageString : string)
| Base_Exception (what : string).

(** What travels to the [catch] clauses of [execute] (lines 239-249): a
    collaborator's fault or one of the exceptions [execute] throws. *)
Inductive thrown : Type :=
| Fault (e : fault)
| UpToFirstLastNotSupported      (* Base::RuntimeError, line 176 *)
| UpToFaceCouldNotRevolve        (* Base::RuntimeError, line 188 *)
| CouldNotRevolve                (* Base::RuntimeError, line 206 *)
| FusionFailed.                  (* Part::BooleanException, line 227 *)

(** The places where [execute] returns an error. *)
Inductive Failure : Type :=
| AngleTooLarge                  (* line 87 *)
| AngleTooSmall                  (* line 91 *)
| ProfileInvalid (what : string) (* line 103 *)
| InvalidAxis (what : string)    (* line 119 *)
| FaceFromSketchFailed           (* line 130 *)
| AxisIntersectsSketch           (* line 162 *)
| NoResult                       (* line 235 *)
| Caught (e : thrown).           (* lines 239-249 *)

Inductive DocumentObjectExecReturn : Type :=
| StdReturn
| Error (why : Failure).

Definition newline : string := String (ascii_of_nat 10) EmptyString.

(** The message of an error return, [DocumentObjectExecReturn::Why]. *)
Definition Why (e : Failure) : string :=
  match e with
  | AngleTooLarge => "Angle of revolution too large"
  | AngleTooSmall => "Angle of revolution too small"
  | ProfileInvalid what => what
  | InvalidAxis what => what
  | FaceFromSketchFailed => "Creating a face from sketch failed"
  | AxisIntersectsSketch => "Revolve axis intersects the sketch"
  | NoResult => "Could not revolve the sketch!"
  | Caught (Fault (Standard_Failure msg)) =>
      if String.eqb msg "TopoDS::Face"
      then ("Could not create face from sketch." ++ newline ++
            "Intersecting sketch entities in a sketch are not allowed.")%string
      else msg
  | Caught (Fault (Base_Exception what)) => what
  | Caught UpToFirstLastNotSupported =>
      "ProfileBased: Revolution up to first/last is not yet supported"
  | Caught UpToFaceCouldNotRevolve =>
      "ProfileBased: Up to face: Could not revolve the sketch!"
  | Caught CouldNotRevolve => "ProfileBased: Could not revolve the sketch!"
  | Caught FusionFailed => "Fusion with base feature failed"
  end.

(** The error kinds of the specification, as sets of error returns. *)
Definition AngleOutOfRange (r : DocumentObjectExecReturn) : Prop :=
  r = Error AngleTooLarge \/ r = Error AngleTooSmall.

Definition UnsupportedTermination : DocumentObjectExecReturn :=
  Error (Caught UpToFirstLastNotSupported).

Definition AxisIntersectsProfile : DocumentObjectExecReturn :=
  Error AxisIntersectsSketch.

Definition isFailure (r : DocumentObjectExecReturn) : bool :=
  match r with StdReturn => false | Error _ => true end.

(** How a statement ends: it falls through with a value, returns from
    [execute], or throws. *)
Inductive Flow (A : Type) : Type :=
| Next (a : A)
| Return (r : DocumentObjectExecReturn)
| Throw (e : thrown).
Arguments Return {A} r.
Arguments Throw {A} e.

Section Feature.
Context {K : Kernel}.

(** [App::PropertyLinkSub]: a target object and sub-element names. *)
Record PropertyLinkSub : Type := mkLinkSub {
  getValue : option DocumentObject;
  getSubValues : list string
}.

(** The properties of the feature that this file reads or writes. *)
Record Feature : Type := mkFeature {
  Type_ : Method.t;
  Base : Vector3d;
  Axis : Vector3d;
  Angle : float;
  Angle2 : float;
  ReferenceAxis : PropertyLinkSub;
  UpToFace : PropertyLinkSub;
  Reversed : bool;
  Midplane : bool;
  Placement : Placement_t;
  AddSubShape : TopoDS_Shape;
  Shape : TopoDS_Shape
}.

Definition set_Base_Axis (b d : Vector3d) (f : Feature) : Feature :=
  mkFeature (Type_ f) b d (Angle f) (Angle2 f) (ReferenceAxis f) (UpToFace f)
            (Reversed f) (Midplane f) (Placement f) (AddSubShape f) (Shape f).

Definition set_Placement (p : Placement_t) (f : Feature) : Feature :=
  mkFeature (Type_ f) (Base f) (Axis f) (Angle f) (Angle2 f) (ReferenceAxis f)
            (UpToFace f) (Reversed f) (Midplane f) p (AddSubShape f) (Shape f).

Definition set_AddSubShape (s : TopoDS_Shape) (f : Feature) : Feature :=
  mkFeature (Type_ f) (Base f) (Axis f) (Angle f) (Angle2 f) (ReferenceAxis f)
            (UpToFace f) (Reversed f) (Midplane f) (Placement f) s (Shape f).

Definition set_Shape (s : TopoDS_Shape) (f : Feature) : Feature :=
  mkFeature (Type_ f) (Base f) (Axis f) (Angle f) (Angle2 f) (ReferenceAxis f)
            (UpToFace f) (Reversed f) (Midplane f) (Placement f) (AddSubShape f) s.

Definition set_Reversed (b : bool) (f : Feature) : Feature :=
  mkFeature (Type_ f) (Base f) (Axis f) (Angle f) (Angle2 f) (ReferenceAxis f)
            (UpToFace f) b (Midplane f) (Placement f) (AddSubShape f) (Shape f).

Definition set_Angle2 (a : float) (f : Feature) : Feature :=
  mkFeature (Type_ f) (Base f) (Axis f) (Angle f) a (ReferenceAxis f)
            (UpToFace f) (Reversed f) (Midplane f) (Placement f) (AddSubShape f)
            (Shape f).

(** How far a revolve is carried: [Perform(angle)] or [Perform(upToFace)]. *)
Inductive Bound : Type :=
| ByAngle (angle : float)
| Until (upToFace : TopoDS_Shape).

(** One use of [BRepFeat_MakeRevol]:
    [Init(base, profile, support, gp_Ax1(pnt, dir), mode, Modify)] followed
    by [Perform(bound)]. *)
Record RevolCall : Type := mkRevolCall {
  rc_base : TopoDS_Shape;
  rc_profile : TopoDS_Shape;
  rc_support : TopoDS_Shape;
  rc_pnt : gp_Pnt;
  rc_dir : gp_Dir;
  rc_mode : Z;
  rc_modify : bool;
  rc_bound : Bound
}.

Inductive ForbiddenAxis : Type := NoCheck | NotParallelWithNormal | NotPerpendicularWithNormal.

(** The collaborators that can fail and the helpers of the base classes
    ([ProfileBased], [FeatureAddSub], [Part::Feature]), none of which is
    part of this file.  They read the document and the inherited
    properties, and of the properties above only what is passed to them.
    [inl] is an exception: the [what()] of a [Base::Exception] for the
    helpers called outside the [try] block, which catch nothing else, and
    a [fault] inside it.  [MakeRevol] and [Fuse] answer [None] when
    [IsDone()] is false and the shape built otherwise.
    [positionByPrevious] gives the placement the feature takes from the
    previous one. *)
Record Host : Type := mkHost {
  getVerifiedFace : string + TopoDS_Shape;
  getBaseShape : string + TopoDS_Shape;
  getAxis : option DocumentObject -> list string -> ForbiddenAxis ->
            string + (Vector3d * Vector3d);
  positionByPrevious : Placement_t -> Placement_t;
  getSupportFace : fault + TopoDS_Shape;
  getFaceFromLinkSub : PropertyLinkSub -> fault + TopoDS_Shape;
  getUpToFace : TopoDS_Shape -> TopoDS_Shape -> TopoDS_Shape -> Method.t ->
                gp_Dir -> fault + TopoDS_Shape;
  MakeRevol : RevolCall -> fault + option TopoDS_Shape;
  refineShapeIfActive : TopoDS_Shape -> fault + TopoDS_Shape;
  Fuse : TopoDS_Shape -> TopoDS_Shape -> fault + option TopoDS_Shape;
  getSolid : TopoDS_Shape -> fault + TopoDS_Shape;
  getReversedAngle : Vector3d -> Vector3d -> float
}.

Definition set_Fuse (g : TopoDS_Shape -> TopoDS_Shape -> fault + option TopoDS_Shape)
    (H : Host) : Host :=
  mkHost (getVerifiedFace H) (getBaseShape H) (getAxis H) (positionByPrevious H)
         (getSupportFace H) (getFaceFromLinkSub H) (getUpToFace H) (MakeRevol H)
         (refineShapeIfActive H) g (getSolid H) (getReversedAngle H).

(** ** Control flow *)

(** The state a run works on: the feature and the revolve operations
    issued so far, oldest first. *)
Record World : Type := mkWorld { self : Feature; calls : list RevolCall }.

Definition Exec (A : Type) : Type := World -> Flow A * World.

Definition ret {A} (a : A) : Exec A := fun w => (Next a, w).

Definition bind {A B} (m : Exec A) (k : A -> Exec B) : Exec B :=
  fun w =>
    match m w with
    | (Next a, w') => k a w'
    | (Return r, w') => (Return r, w')
    | (Throw e, w') => (Throw e, w')
    end.

Definition doReturn {A} (r : DocumentObjectExecReturn) : Exec A :=
  fun w => (Return r, w).

Definition throw {A} (e : thrown) : Exec A := fun w => (Throw e, w).

(** A call of a collaborator inside the [try] block. *)
Definition call {A} (r : fault + A) : Exec A :=
  match r with
  | inl e => throw (Fault e)
  | inr a => ret a
  end.

Definition modify (g : Feature -> Feature) : Exec unit :=
  fun w => (Next tt, mkWorld (g (self w)) (calls w)).

Definition record (c : RevolCall) : Exec unit :=
  fun w => (Next tt, mkWorld (self w) (calls w ++ [c])).

End Feature.

Declare Scope exec_scope.
Delimit Scope exec_scope with exec.
Notation "x <- m ;; k" := (bind m (fun x => k))
  (at level 100, m at next level, right associativity) : exec_scope.
Notation "' p <- m ;; k" := (bind m (fun x => let 'p := x in k))
  (at level 100, p pattern, m at next level, right associativity) : exec_scope.
Notation "m ;;; k" := (bind m (fun _ => k))
  (at level 100, right associativity) : exec_scope.

(** ** The feature's operations *)

Section Revolution.
Context {K : Kernel}.
Variable H : Host.
Local Open Scope exec_scope.

(** [Revolution::updateAxis] (lines 263-273); [inl] is the
    [Base::Exception] of [getAxis], raised before any property is set. *)
Definition updateAxis (f : Feature) : string + Feature :=
  let pcReferenceAxis := getValue (ReferenceAxis f) in
  let subReferenceAxis := getSubValues (ReferenceAxis f) in
  match getAxis H pcReferenceAxis subReferenceAxis NotParallelWithNormal with
  | inl e => inl e
  | inr (base, dir) =>
      inr (set_Base_Axis (mkVector3d (x base) (y base) (z base))
                         (mkVector3d (x dir) (y dir) (z dir)) f)
  end.

(** [Revolution::suggestReversed] (lines 252-261): the answer and the
    feature it leaves. *)
Definition suggestReversed (f : Feature) : bool * Feature :=
  match updateAxis f with
  | inl _ => (false, f)
  | inr f' => (getReversedAngle H (Base f') (Axis f') <? 0, f')
  end.

(** Lines 95-97: reverse the angle if selected. *)
Definition reverseAngle (f : Feature) (angle : float) : float :=
  if Reversed f && negb (Midplane f) then angle * (-1) else angle.

(** Lines 134-148: the rotation of the profile ahead of the sweep and the
    angle to sweep. *)
Definition orient (f : Feature) (pnt : gp_Pnt) (dir : gp_Dir)
    (angle angle2 : float) (sketchshape : TopoDS_Shape) : TopoDS_Shape * float :=
  if Midplane f then
    let mov := SetRotation pnt dir (toRadians (Angle f) * (-1) / 2) in
    (Move sketchshape (Location mov), angle)
  else if Method.eqb (Type_ f) Method.TwoAngles then
    let mov := SetRotation pnt dir (angle2 * (-1)) in
    (Move sketchshape (Location mov), angle + angle2)
  else (sketchshape, angle).

(** Lines 157-163: the distance check between the sketch faces and the
    axis. *)
Fixpoint checkAxis (pnt : gp_Pnt) (dir : gp_Dir) (fs : list TopoDS_Shape)
    : Exec unit :=
  match fs with
  | [] => ret tt
  | face :: rest =>
      if checkLineCrossesFace pnt dir face
      then doReturn (Error AxisIntersectsSketch)
      else checkAxis pnt dir rest
  end.

(** The loop over the faces of lines 183-193 and of lines 201-211, which
    differ in the argument of [Perform] and in the exception thrown when
    the maker is not done.  [maker] is the shape held by [RevolMaker]:
    [None] while it is not done, as a fresh one is. *)
Fixpoint revolveFaces (supportface : TopoDS_Shape) (pnt : gp_Pnt) (dir : gp_Dir)
    (bound : Bound) (notDone : thrown) (fs : list TopoDS_Shape)
    (base : TopoDS_Shape) (mode : Z) (maker : option TopoDS_Shape)
    : Exec (TopoDS_Shape * option TopoDS_Shape) :=
  match fs with
  | [] => ret (base, maker)
  | face :: rest =>
      let c := mkRevolCall base face supportface pnt dir mode true bound in
      record c ;;;
      done <- call (MakeRevol H c) ;;
      match done with
      | None => throw notDone
      | Some shape =>
          revolveFaces supportface pnt dir bound notDone rest
                       shape (if (mode =? 2)%Z then 1%Z else mode) (Some shape)
      end
  end.

Definition isUpTo (method : Method.t) : bool :=
  Method.eqb method Method.UpToFace || Method.eqb method Method.UpToFirst
  || Method.eqb method Method.UpToLast.

(** Lines 165-215: the support face, the termination and the revolve of
    every face; the value is the pair of [base] and [result] as they
    stand at line 216. *)
Definition sweep (method : Method.t) (upToFaceLink : PropertyLinkSub)
    (invObjLoc : TopLoc_Location) (pnt : gp_Pnt) (dir : gp_Dir)
    (base sketchshape : TopoDS_Shape) (angle : float)
    : Exec (TopoDS_Shape * TopoDS_Shape) :=
  supportface <- call (getSupportFace H) ;;
  let supportface := Move supportface invObjLoc in
  if isUpTo method then
    upToFace <-
      (if Method.eqb method Method.UpToFace then
         upToFace <- call (getFaceFromLinkSub H upToFaceLink) ;;
         ret (Move upToFace invObjLoc)
       else throw UpToFirstLastNotSupported) ;;
    upToFace <- call (getUpToFace H upToFace base sketchshape method dir) ;;
    ' (base, _) <- revolveFaces supportface pnt dir (Until upToFace)
                     UpToFaceCouldNotRevolve (faces sketchshape) base 2%Z None ;;
    ret (base, base)
  else
    ' (base, maker) <- revolveFaces supportface pnt dir (ByAngle angle)
                         CouldNotRevolve (faces sketchshape) base 2%Z None ;;
    ret (base, match maker with Some shape => shape | None => NullShape end).

(** Lines 217-235: refine, set [AddSubShape], fuse, set [Shape]. *)
Definition commit (base result : TopoDS_Shape) : Exec unit :=
  if negb (IsNull result) then
    result <- call (refineShapeIfActive H result) ;;
    modify (set_AddSubShape result) ;;;
    result <-
      (if negb (IsNull base) then
         mkFuse <- call (Fuse H base result) ;;
         match mkFuse with
         | None => throw FusionFailed
         | Some fused => call (refineShapeIfActive H fused)
         end
       else ret result) ;;
    solid <- call (getSolid H result) ;;
    modify (set_Shape solid)
  else doReturn (Error NoResult).

(** Lines 123-126: the revolve axis of the feature. *)
Definition axisPnt (f : Feature) : gp_Pnt :=
  let b := Base f in mk_Pnt (x b) (y b) (z b).

Definition axisDir (f : Feature) : gp_Dir :=
  let v := Axis f in mk_Dir (x v) (y v) (z v).

(** Lines 150-151: [positionByPrevious()] sets the placement, whose
    location is then inverted. *)
Definition localFrame (f : Feature) : TopLoc_Location :=
  Inverted (getLocation (positionByPrevious H (Placement f))).

(** Lines 152-153: the axis in that frame. *)
Definition localPnt (f : Feature) : gp_Pnt :=
  Pnt_Transform (axisPnt f) (Transformation (localFrame f)).

Definition localDir (f : Feature) : gp_Dir :=
  Dir_Transform (axisDir f) (Transformation (localFrame f)).

(** Lines 129-235, the body of the [try] block.  [f] is the feature as
    [updateAxis] left it; the properties read from it are not written in
    the block, but for [Placement], which is read back (by [getLocation])
    right after it is set. *)
Definition tryBody (f : Feature) (sketchshape base : TopoDS_Shape)
    (angle angle2 : float) : Exec unit :=
  let pnt := axisPnt f in
  let dir := axisDir f in
  if IsNull sketchshape then doReturn (Error FaceFromSketchFailed) else
  let method := Type_ f in
  let '(sketchshape, angle) := orient f pnt dir angle angle2 sketchshape in
  modify (set_Placement (positionByPrevious H (Placement f))) ;;;
  let invObjLoc := localFrame f in
  let pnt := Pnt_Transform pnt (Transformation invObjLoc) in
  let dir := Dir_Transform dir (Transformation invObjLoc) in
  let base := Move base invObjLoc in
  let sketchshape := Move sketchshape invObjLoc in
  checkAxis pnt dir (faces sketchshape) ;;;
  ' (base, result) <- sweep method (UpToFace f) invObjLoc pnt dir base
                            sketchshape angle ;;
  commit base result.

(** Lines 107-113: the base shape, null when there is none. *)
Definition baseShape : TopoDS_Shape :=
  match getBaseShape H with
  | inl _ => NullShape
  | inr shape => shape
  end.

(** [Revolution::execute] (lines 81-250): the value returned, the feature
    as the call leaves it and the revolve operations it issued. *)
Definition execute (f : Feature) : DocumentObjectExecReturn * World :=
  let w := mkWorld f [] in
  let angleDeg := Angle f in
  if 360 <? angleDeg then (Error AngleTooLarge, w) else
  let angle := toRadians angleDeg in
  if angle <? Precision_Angular then (Error AngleTooSmall, w) else
  let angle2 := toRadians (Angle2 f) in
  let angle := reverseAngle f angle in
  match getVerifiedFace H with
  | inl e => (Error (ProfileInvalid e), w)
  | inr sketchshape =>
      let base := baseShape in
      match updateAxis f with
      | inl e => (Error (InvalidAxis e), w)
      | inr f =>
          match tryBody f sketchshape base angle angle2 (mkWorld f []) with
          | (Next _, w) => (StdReturn, w)
          | (Return r, w) => (r, w)
          | (Throw e, w) => (Error (Caught e), w)
          end
      end
  end.

End Revolution.

(** ** How a computation treats the feature and the log *)

Section FootprintDefinitions.
Context {K : Kernel}.

(** The properties a run may write after [updateAxis]: each is left alone
    or set to a value. *)
Record Update : Type := mkUpdate {
  uPlacement : option Placement_t;
  uAddSubShape : option TopoDS_Shape;
  uShape : option TopoDS_Shape
}.

Definition setOpt {A} (set : A -> Feature -> Feature) (o : option A)
    (s : Feature) : Feature :=
  match o with
  | Some a => set a s
  | None => s
  end.

Definition apply (u : Update) (s : Feature) : Feature :=
  setOpt set_Shape (uShape u)
    (setOpt set_AddSubShape (uAddSubShape u)
       (setOpt set_Placement (uPlacement u) s)).

Definition orElse {A} (late early : option A) : option A :=
  match late with
  | Some a => Some a
  | None => early
  end.

Definition after (u2 u1 : Update) : Update :=
  mkUpdate (orElse (uPlacement u2) (uPlacement u1))
           (orElse (uAddSubShape u2) (uAddSubShape u1))
           (orElse (uShape u2) (uShape u1)).

Definition untouched : Update := mkUpdate None None None.

(** [m] only appends to the log: its flow and the calls it adds are the
    same from every world, and the feature is left as it was. *)
Definition logs {A} (m : Exec A) : Prop :=
  exists fl new, forall s cs, m (mkWorld s cs) = (fl, mkWorld s (cs ++ new)).

(** [m] writes the feature without reading it. *)
Definition writes {A} (m : Exec A) : Prop :=
  exists fl u new,
    forall s cs, m (mkWorld s cs) = (fl, mkWorld (apply u s) (cs ++ new)).

(** What every revolve operation of a loop over [fs] is given. *)
Definition issuedFor (sup : TopoDS_Shape) (pnt : gp_Pnt) (dir : gp_Dir)
    (bound : Bound) (fs : list TopoDS_Shape) (c : RevolCall) : Prop :=
  In (rc_profile c) fs /\ rc_support c = sup /\ rc_pnt c = pnt /\
  rc_dir c = dir /\ rc_bound c = bound.

(** How a revolve operation is bounded under [method]: by the angle, or
    by some face for the up-to types. *)
Definition sweptBy (method : Method.t) (angle : float) (c : RevolCall) : Prop :=
  if isUpTo method then exists upToFace, rc_bound c = Until upToFace
  else rc_bound c = ByAngle angle.

(** What [commit] leaves, by the way it ends: the two shapes are set on
    falling through, nothing is on the error return, and a throw comes
    either before [AddSubShape] is set or after it and before [Shape]. *)
Definition commitPost (H : Host) (result : TopoDS_Shape) (s : Feature)
    (cs : list RevolCall) (fl : Flow unit) (w : World) : Prop :=
  calls w = cs /\
  match fl with
  | Next _ =>
      exists refined solid,
        IsNull result = false /\
        refineShapeIfActive H result = inr refined /\
        self w = set_Shape solid (set_AddSubShape refined s)
  | Return r => r = Error NoResult /\ IsNull result = true /\ self w = s
  | Throw e =>
      (exists k, e = Fault k /\ self w = s) \/
      ((e = FusionFailed \/ exists k, e = Fault k) /\
       exists refined,
         refineShapeIfActive H result = inr refined /\
         self w = set_AddSubShape refined s)
  end.

(** The profile as the revolve sees it (lines 134-155): rotated ahead of
    the sweep and moved into the local frame; and the angle swept. *)
Definition localSketch (H : Host) (f : Feature) (angle angle2 : float)
    (sk : TopoDS_Shape) : TopoDS_Shape :=
  Move (fst (orient f (axisPnt f) (axisDir f) angle angle2 sk)) (localFrame H f).

Definition sweepAngle (f : Feature) (angle angle2 : float) (sk : TopoDS_Shape)
    : float :=
  snd (orient f (axisPnt f) (axisDir f) angle angle2 sk).

(** The value [execute] returns for the way the [try] block ends
    (lines 237-249). *)
Definition returned (fl : Flow unit) : DocumentObjectExecReturn :=
  match fl with
  | Next _ => StdReturn
  | Return r => r
  | Throw e => Error (Caught e)
  end.

(** The ways through the [try] block. *)
Definition tryBodyCases (H : Host) (f : Feature) (sk base : TopoDS_Shape)
    (angle angle2 : float) (s : Feature) (cs : list RevolCall)
    (fl : Flow unit) (w : World) : Prop :=
  let s1 := set_Placement (positionByPrevious H (Placement f)) s in
  let sk' := localSketch H f angle angle2 sk in
  (IsNull sk = true /\ fl = Return (Error FaceFromSketchFailed) /\
   w = mkWorld s cs) \/
  (IsNull sk = false /\
   ((existsb (checkLineCrossesFace (localPnt H f) (localDir H f)) (faces sk') = true /\
     fl = Return AxisIntersectsProfile /\ w = mkWorld s1 cs) \/
    (existsb (checkLineCrossesFace (localPnt H f) (localDir H f)) (faces sk') = false /\
     exists fl1 w1,
       sweep H (Type_ f) (UpToFace f) (localFrame H f) (localPnt H f)
             (localDir H f) (Move base (localFrame H f)) sk'
             (sweepAngle f angle angle2 sk) (mkWorld s1 cs) = (fl1, w1) /\
       match fl1 with
       | Next (b, r) => commit H b r w1 = (fl, w)
       | Return r => fl = Return r /\ w = w1
       | Throw e => fl = Throw e /\ w = w1
       end))).

(** The ways through [execute]. *)
Definition executeCases (H : Host) (f : Feature)
    (r : DocumentObjectExecReturn) (w : World) : Prop :=
  ((360 <? Angle f) = true /\ r = Error AngleTooLarge /\ w = mkWorld f []) \/
  ((360 <? Angle f) = false /\
   (((toRadians (Angle f) <? Precision_Angular) = true /\
     r = Error AngleTooSmall /\ w = mkWorld f []) \/
    ((toRadians (Angle f) <? Precision_Angular) = false /\
     ((exists e, getVerifiedFace H = inl e /\ r = Error (ProfileInvalid e) /\
                 w = mkWorld f []) \/
      (exists sk,
         getVerifiedFace H = inr sk /\
         ((exists e, updateAxis H f = inl e /\ r = Error (InvalidAxis e) /\
                     w = mkWorld f []) \/
          (exists f',
             updateAxis H f = inr f' /\
             exists fl,
               tryBody H f' sk (baseShape H)
                       (reverseAngle f (toRadians (Angle f)))
                       (toRadians (Angle2 f)) (mkWorld f' []) = (fl, w) /\
               r = returned fl))))))).

(** ** The paths of a run

    The notions below are over the feature [g] that [updateAxis] leaves:
    [f] with [Base] and [Axis] set to the resolved axis. *)

Definition inRange (f : Feature) : Prop :=
  (360 <? Angle f) = false /\
  (toRadians (Angle f) <? Precision_Angular) = false.

(** The angle after lines 89-97. *)
Definition signedAngle (g : Feature) : float :=
  reverseAngle g (toRadians (Angle g)).

(** The profile and the angle the revolve loop works on. *)
Definition sweptProfile (H : Host) (g : Feature) (sk : TopoDS_Shape)
    : TopoDS_Shape :=
  localSketch H g (signedAngle g) (toRadians (Angle2 g)) sk.

Definition sweptAngle (g : Feature) (sk : TopoDS_Shape) : float :=
  sweepAngle g (signedAngle g) (toRadians (Angle2 g)) sk.

(** The outcome of the loop of lines 157-163: some face of the profile is
    crossed by the axis. *)
Definition axisCrosses (H : Host) (g : Feature) (sk : TopoDS_Shape) : bool :=
  existsb (checkLineCrossesFace (localPnt H g) (localDir H g))
          (faces (sweptProfile H g sk)).

(** The run gets to the check of the axis against the faces: the angle is
    in range, the profile is there and not null, the axis resolves. *)
Definition reachesAxisCheck (H : Host) (f : Feature) (sk : TopoDS_Shape)
    (g : Feature) : Prop :=
  inRange f /\ getVerifiedFace H = inr sk /\ updateAxis H f = inr g /\
  IsNull sk = false.

(** The run gets to the selection of the termination (line 169). *)
Definition reachesTermination (H : Host) (f : Feature) : Prop :=
  exists sk g sup,
    reachesAxisCheck H f sk g /\ axisCrosses H g sk = false /\
    getSupportFace H = inr sup.

(** What a revolve operation of the run is given. *)
Definition issued (H : Host) (g : Feature) (sk : TopoDS_Shape) (c : RevolCall)
    : Prop :=
  In (rc_profile c) (faces (sweptProfile H g sk)) /\
  rc_pnt c = localPnt H g /\ rc_dir c = localDir H g /\
  sweptBy (Type_ g) (sweptAngle g sk) c.

(** The feature once [positionByPrevious] has set the placement. *)
Definition placed (H : Host) (g : Feature) : Feature :=
  set_Placement (positionByPrevious H (Placement g)) g.

(** Lines 165-215 on the values of the run. *)
Definition sweepOf (H : Host) (g : Feature) (sk : TopoDS_Shape)
    : Exec (TopoDS_Shape * TopoDS_Shape) :=
  sweep H (Type_ g) (UpToFace g) (localFrame H g) (localPnt H g) (localDir H g)
        (Move (baseShape H) (localFrame H g)) (sweptProfile H g sk)
        (sweptAngle g sk).

(** The value of the loop: the shape of the last revolve when there was
    one; with no face to revolve, [base] is the base shape and [result]
    the base shape (up to face) or null. *)
Definition sweptResult (H : Host) (g : Feature) (sk : TopoDS_Shape)
    (new : list RevolCall) (base result : TopoDS_Shape) : Prop :=
  (exists pre c,
     new = pre ++ [c] /\ MakeRevol H c = inr (Some result) /\ base = result) \/
  (new = [] /\ faces (sweptProfile H g sk) = [] /\
   base = Move (baseShape H) (localFrame H g) /\
   result = if isUpTo (Type_ g) then base else NullShape).

(** Every run of [execute] takes one of these paths. *)
Inductive Run (H : Host) (f : Feature)
    : DocumentObjectExecReturn -> World -> Prop :=
| RunAngleTooLarge :
    (360 <? Angle f) = true ->
    Run H f (Error AngleTooLarge) (mkWorld f [])
| RunAngleTooSmall :
    (360 <? Angle f) = false ->
    (toRadians (Angle f) <? Precision_Angular) = true ->
    Run H f (Error AngleTooSmall) (mkWorld f [])
| RunProfileInvalid e :
    inRange f -> getVerifiedFace H = inl e ->
    Run H f (Error (ProfileInvalid e)) (mkWorld f [])
| RunInvalidAxis sk e :
    inRange f -> getVerifiedFace H = inr sk -> updateAxis H f = inl e ->
    Run H f (Error (InvalidAxis e)) (mkWorld f [])
| RunNullSketch sk g :
    inRange f -> getVerifiedFace H = inr sk -> updateAxis H f = inr g ->
    IsNull sk = true ->
    Run H f (Error FaceFromSketchFailed) (mkWorld g [])
| RunAxisCrosses sk g :
    reachesAxisCheck H f sk g -> axisCrosses H g sk = true ->
    Run H f AxisIntersectsProfile (mkWorld (placed H g) [])
| RunSweepThrows sk g e new :
    reachesAxisCheck H f sk g -> axisCrosses H g sk = false ->
    sweepOf H g sk (mkWorld (placed H g) []) =
      (Throw e, mkWorld (placed H g) new) ->
    Forall (issued H g sk) new ->
    Run H f (Error (Caught e)) (mkWorld (placed H g) new)
| RunCommit sk g base result new fl w :
    reachesAxisCheck H f sk g -> axisCrosses H g sk = false ->
    sweepOf H g sk (mkWorld (placed H g) []) =
      (Next (base, result), mkWorld (placed H g) new) ->
    Forall (issued H g sk) new ->
    sweptResult H g sk new base result ->
    commit H base result (mkWorld (placed H g) new) = (fl, w) ->
    Run H f (returned fl) w.

End FootprintDefinitions.

(** ** The chain of revolve operations *)

Section TraceDefinitions.
Context {K : Kernel}.

(** The revolve operations of one loop (lines 181-193, 199-211) form a
    chain: the first is given [base] and [mode]; each next one is given
    the shape the one before it built, and the mode 1. *)
Fixpoint chain (H : Host) (base : TopoDS_Shape) (mode : Z)
    (cs : list RevolCall) : Prop :=
  match cs with
  | [] => True
  | c :: rest =>
      rc_base c = base /\ rc_mode c = mode /\ rc_modify c = true /\
      match rest with
      | [] => True
      | _ :: _ =>
          exists shape, MakeRevol H c = inr (Some shape) /\ chain H shape 1 rest
      end
  end.

(** What the sweep of lines 165-215 issues and how it can end: the
    revolves form a chain over the faces of the profile, in their order;
    they share the support face and, up to a face, the face that bounds
    them; a throw tells where the sweep stopped. *)
Definition sweepPost (H : Host) (method : Method.t) (link : PropertyLinkSub)
    (inv : TopLoc_Location) (dir : gp_Dir) (base sk : TopoDS_Shape)
    (new : list RevolCall) (fl : Flow (TopoDS_Shape * TopoDS_Shape)) : Prop :=
  chain H base 2 new /\
  (exists rest,
     faces sk = map rc_profile new ++ rest /\
     match fl with Next _ => rest = [] | _ => True end) /\
  (new <> [] ->
   exists sup,
     getSupportFace H = inr sup /\
     Forall (fun c => rc_support c = Move sup inv) new) /\
  (new <> [] -> isUpTo method = true ->
   exists face up,
     method = Method.UpToFace /\
     getFaceFromLinkSub H link = inr face /\
     getUpToFace H (Move face inv) base sk method dir = inr up /\
     Forall (fun c => rc_bound c = Until up) new) /\
  match fl with
  | Next (b, res) =>
      new = [] \/
      exists pre c, new = pre ++ [c] /\ MakeRevol H c = inr (Some res) /\ b = res
  | Return _ => False
  | Throw CouldNotRevolve =>
      isUpTo method = false /\
      exists pre c, new = pre ++ [c] /\ MakeRevol H c = inr None
  | Throw UpToFaceCouldNotRevolve =>
      method = Method.UpToFace /\
      exists pre c, new = pre ++ [c] /\ MakeRevol H c = inr None
  | Throw UpToFirstLastNotSupported =>
      (method = Method.UpToFirst \/ method = Method.UpToLast) /\ new = []
  | Throw FusionFailed => False
  | Throw (Fault k) =>
      new = [] \/ exists pre c, new = pre ++ [c] /\ MakeRevol H c = inl k
  end.

Definition set_MakeRevol (m : RevolCall -> fault + option TopoDS_Shape)
    (H : Host) : Host :=
  mkHost (getVerifiedFace H) (getBaseShape H) (getAxis H) (positionByPrevious H)
         (getSupportFace H) (getFaceFromLinkSub H) (getUpToFace H) m
         (refineShapeIfActive H) (Fuse H) (getSolid H) (getReversedAngle H).

Definition set_UpToFace (l : PropertyLinkSub) (f : Feature) : Feature :=
  mkFeature (Type_ f) (Base f) (Axis f) (Angle f) (Angle2 f) (ReferenceAxis f)
            l (Reversed f) (Midplane f) (Placement f) (AddSubShape f) (Shape f).

End TraceDefinitions.

(** ** The point where the swept shape is stored *)

Section StoreDefinitions.
Context {K : Kernel}.

(** The run gets to line 220: the axis check passed, the sweep of lines
    165-215 issued the revolves [new] and left [base] and [result], and
    [result] is not null and was refined into [refined], the shape that
    line 220 stores in [AddSubShape]. *)
Definition reachesStore (H : Host) (f : Feature) (new : list RevolCall)
    (base result refined : TopoDS_Shape) : Prop :=
  exists sk g,
    reachesAxisCheck H f sk g /\ axisCrosses H g sk = false /\
    sweepOf H g sk (mkWorld (placed H g) []) =
      (Next (base, result), mkWorld (placed H g) new) /\
    sweptResult H g sk new base result /\
    IsNull result = false /\ refineShapeIfActive H result = inr refined.

(** What lines 222-232 throw, after the store of line 220: the fuse that
    is not done (line 227), or the fault of the fuse, of the refinement of
    the fused shape or of [getSolid]. *)
Definition failsLate (H : Host) (base refined : TopoDS_Shape) (t : thrown)
    : Prop :=
  if IsNull base then
    exists k, getSolid H refined = inl k /\ t = Fault k
  else
    match Fuse H base refined with
    | inl k => t = Fault k
    | inr None => t = FusionFailed
    | inr (Some fused) =>
        match refineShapeIfActive H fused with
        | inl k => t = Fault k
        | inr refined2 => exists k, getSolid H refined2 = inl k /\ t = Fault k
        end
    end.

End StoreDefinitions.

(** ** A symbolic kernel

    Shapes are the terms built by the kernel operations, so that a run of
    [execute] can be evaluated and read back. *)

Module Symbolic.

Inductive loc : Type :=
| Rotation (pnt dir : Vector3d) (angle : float)
| OfPlacement (p : nat)
| Inverse (l : loc).

Inductive shape : Type :=
| Null
| Face (id : nat)
| Compound (a b : shape)
| Empty                              (* a compound without faces *)
| Moved (s : shape) (l : loc)
| Revolved (base profile : shape) (mode : Z) (angle : option float)
| Refined (s : shape)
| Fused (a b : shape)
| Solid (s : shape).

Fixpoint isNull (s : shape) : bool :=
  match s with
  | Null => true
  | Moved s _ => isNull s
  | _ => false
  end.

Fixpoint facesOf (s : shape) : list shape :=
  match s with
  | Face id => [Face id]
  | Compound a b => facesOf a ++ facesOf b
  | Moved s l => map (fun face => Moved face l) (facesOf s)
  | _ => []
  end.

(** The face numbered 0 lies across every axis; no other face does. *)
Fixpoint crossed (s : shape) : bool :=
  match s with
  | Face id => Nat.eqb id 0
  | Moved s _ => crossed s
  | _ => false
  end.

#[export] Instance kernel : Kernel := {|
  TopoDS_Shape := shape;
  gp_Pnt := Vector3d * list loc;
  gp_Dir := Vector3d * list loc;
  gp_Trsf := loc;
  TopLoc_Location := loc;
  Placement_t := nat;
  DocumentObject := string;
  NullShape := Null;
  IsNull := isNull;
  IsNull_NullShape := eq_refl;
  mk_Pnt := fun a b c => (mkVector3d a b c, []);
  mk_Dir := fun a b c => (mkVector3d a b c, []);
  SetRotation := fun p d a => Rotation (fst p) (fst d) a;
  Location := fun t => t;
  Inverted := Inverse;
  Transformation := fun l => l;
  Pnt_Transform := fun p t => (fst p, snd p ++ [t]);
  Dir_Transform := fun d t => (fst d, snd d ++ [t]);
  Move := Moved;
  faces := facesOf;
  checkLineCrossesFace := fun _ _ face => crossed face;
  getLocation := OfPlacement
|}.

Definition revolve (c : RevolCall) : shape :=
  Revolved (rc_base c) (rc_profile c) (rc_mode c)
           (match rc_bound c with
            | ByAngle a => Some a
            | Until _ => None
            end).

(** A document with the given profile and base shape, whose reference
    axis resolves to the Y axis through the origin unless it is unset;
    [fusible] tells whether the boolean fuse gets done. *)
Definition host (profile : shape) (base : option shape) (fusible : bool) : Host := {|
  getVerifiedFace := inr profile;
  getBaseShape := match base with
                  | Some s => inr s
                  | None => inl "No base"
                  end;
  getAxis := fun obj _ _ =>
    match obj with
    | Some _ => inr (mkVector3d 0 0 0, mkVector3d 0 1 0)
    | None => inl "No rotation axis reference specified"
    end;
  positionByPrevious := fun _ => 7%nat;
  getSupportFace := inr (Face 100);
  getFaceFromLinkSub := fun link =>
    match getValue link with
    | Some _ => inr (Face 200)
    | None => inl (Base_Exception "Failed to extract face")
    end;
  getUpToFace := fun upToFace _ _ _ _ => inr upToFace;
  MakeRevol := fun c => inr (Some (revolve c));
  refineShapeIfActive := fun s => inr (Refined s);
  Fuse := fun a b => inr (if fusible then Some (Fused a b) else None);
  getSolid := fun s => inr (Solid s);
  getReversedAngle := fun b d => y d - 2
|}.

Definition axisRef : PropertyLinkSub := mkLinkSub (Some "Sketch") ["V_Axis"].
Definition noRef : PropertyLinkSub := mkLinkSub None [].

(** A feature with the defaults of the constructor (lines 52-66) but
    for the given type, angles and flags. *)
Definition feature (type : Method.t) (angle angle2 : float)
    (reversed midplane : bool) : Feature := {|
  Type_ := type;
  Base := mkVector3d 0 0 0;
  Axis := mkVector3d 0 1 0;
  Angle := angle;
  Angle2 := angle2;
  ReferenceAxis := axisRef;
  UpToFace := noRef;
  Reversed := reversed;
  Midplane := midplane;
  Placement := 3%nat;
  AddSubShape := Null;
  Shape := Null
|}.

Definition twoFaces : shape := Compound (Face 1) (Face 2).

End Symbolic.

(** Further documents of the symbolic kernel. *)

Module Cases.

(** The kernel does not get the revolve of face 2 done. *)
Definition stubborn : Host :=
  set_MakeRevol
    (fun c : @RevolCall Symbolic.kernel =>
       match (rc_profile c : Symbolic.shape) with
              | Symbolic.Moved (Symbolic.Face 2) _ => inr None
              | _ => inr (Some (Symbolic.revolve c))
              end)
    (Symbolic.host Symbolic.twoFaces None true).

(** A feature that ends at a face named by its [UpToFace] link. *)
Definition upToFace : @Feature Symbolic.kernel :=
  set_UpToFace (mkLinkSub (K := Symbolic.kernel) (Some "Pad") ["Face3"])
               (Symbolic.feature Method.UpToFace 360 60 false false).

End Cases.

(** * Properties *)

(** ** The revolution type *)

Lemma Method_eqb_eq (a b : Method.t) : Method.eqb a b = true <-> a = b.
Proof. destruct a, b; simpl; split; intro E; try reflexivity; discriminate E. Qed.

Lemma Method_eqb_string (a b : Method.t) :
  Method.eqb a b = String.eqb (Method.getValueAsString a) (Method.getValueAsString b).
Proof. destruct a, b; reflexivity. Qed.

(** ** Composition rules for the footprint *)

Section Footprint.
Context {K : Kernel}.

Lemma apply_after (u2 u1 : Update) (s : Feature) :
  apply u2 (apply u1 s) = apply (after u2 u1) s.
Proof.
  destruct u1 as [[p1|] [a1|] [s1|]], u2 as [[p2|] [a2|] [s2|]]; reflexivity.
Qed.

Lemma apply_twice (u : Update) (s : Feature) : apply u (apply u s) = apply u s.
Proof. destruct u as [[p|] [a|] [sh|]]; reflexivity. Qed.

Lemma logs_writes {A} (m : Exec A) : logs m -> writes m.
Proof.
  intros (fl & new & E). exists fl, untouched, new. intros s cs. apply E.
Qed.

Lemma logs_ret {A} (a : A) : logs (ret a).
Proof. exists (Next a), []. intros s cs. unfold ret. now rewrite app_nil_r. Qed.

Lemma logs_throw {A} (e : thrown) : logs (@throw K A e).
Proof. exists (Throw e), []. intros s cs. unfold throw. now rewrite app_nil_r. Qed.

Lemma logs_doReturn {A} (r : DocumentObjectExecReturn) : logs (@doReturn K A r).
Proof. exists (Return r), []. intros s cs. unfold doReturn. now rewrite app_nil_r. Qed.

Lemma logs_call {A} (r : fault + A) : logs (call r).
Proof. destruct r; [apply logs_throw | apply logs_ret]. Qed.

Lemma logs_record (c : RevolCall) : logs (record c).
Proof. exists (Next tt), [c]. intros s cs. reflexivity. Qed.

Lemma logs_bind {A B} (m : Exec A) (k : A -> Exec B) :
  logs m -> (forall a, logs (k a)) -> logs (bind m k).
Proof.
  intros (fl & new & E) Hk. destruct fl as [a | r | e].
  - destruct (Hk a) as (fl2 & new2 & E2). exists fl2, (new ++ new2).
    intros s cs. unfold bind. rewrite E, E2. now rewrite app_assoc.
  - exists (Return r), new. intros s cs. unfold bind. now rewrite E.
  - exists (Throw e), new. intros s cs. unfold bind. now rewrite E.
Qed.

Lemma writes_modify_Placement (p : Placement_t) : writes (modify (set_Placement p)).
Proof.
  exists (Next tt), (mkUpdate (Some p) None None), []. intros s cs.
  unfold modify. simpl. now rewrite app_nil_r.
Qed.

Lemma writes_modify_AddSubShape (a : TopoDS_Shape) :
  writes (modify (set_AddSubShape a)).
Proof.
  exists (Next tt), (mkUpdate None (Some a) None), []. intros s cs.
  unfold modify. simpl. now rewrite app_nil_r.
Qed.

Lemma writes_modify_Shape (a : TopoDS_Shape) : writes (modify (set_Shape a)).
Proof.
  exists (Next tt), (mkUpdate None None (Some a)), []. intros s cs.
  unfold modify. simpl. now rewrite app_nil_r.
Qed.

Lemma writes_bind {A B} (m : Exec A) (k : A -> Exec B) :
  writes m -> (forall a, writes (k a)) -> writes (bind m k).
Proof.
  intros (fl & u & new & E) Hk. destruct fl as [a | r | e].
  - destruct (Hk a) as (fl2 & u2 & new2 & E2).
    exists fl2, (after u2 u), (new ++ new2).
    intros s cs. unfold bind. rewrite E, E2.
    now rewrite apply_after, app_assoc.
  - exists (Return r), u, new. intros s cs. unfold bind. now rewrite E.
  - exists (Throw e), u, new. intros s cs. unfold bind. now rewrite E.
Qed.

(** A computation that writes without reading can be replayed from any
    other world. *)
Lemma writes_replay {A} (m : Exec A) (s : Feature) (cs : list RevolCall)
    (fl : Flow A) (w : World) :
  writes m -> m (mkWorld s cs) = (fl, w) ->
  exists u new,
    w = mkWorld (apply u s) (cs ++ new) /\
    forall s' cs', m (mkWorld s' cs') = (fl, mkWorld (apply u s') (cs' ++ new)).
Proof.
  intros (fl0 & u & new & E) R. rewrite E in R. injection R as <- <-.
  exists u, new. split; [reflexivity | exact E].
Qed.

End Footprint.

Create HintDb footprint.
#[local] Hint Resolve logs_ret logs_throw logs_doReturn logs_call logs_record
  logs_writes writes_modify_Placement writes_modify_AddSubShape
  writes_modify_Shape : footprint.

(** ** The phases of [execute] *)

Section Phases.
Context {K : Kernel}.
Variable H : Host.

Ltac run_in R :=
  unfold bind, call, ret, throw, doReturn, record, modify in R; simpl in R.

Lemma issuedFor_cons sup pnt dir bound face fs c :
  issuedFor sup pnt dir bound fs c -> issuedFor sup pnt dir bound (face :: fs) c.
Proof. intros (I & R). split; [now right | exact R]. Qed.

Lemma checkAxis_run pnt dir fs w :
  checkAxis pnt dir fs w =
  (if existsb (checkLineCrossesFace pnt dir) fs
   then Return AxisIntersectsProfile else Next tt, w).
Proof.
  induction fs as [| face rest IH]; simpl; [reflexivity |].
  destruct (checkLineCrossesFace pnt dir face); simpl; [reflexivity | exact IH].
Qed.

Lemma revolveFaces_run sup pnt dir bound nd fs :
  forall base mode maker s cs fl w,
    revolveFaces H sup pnt dir bound nd fs base mode maker (mkWorld s cs) = (fl, w) ->
    exists new,
      w = mkWorld s (cs ++ new) /\
      Forall (issuedFor sup pnt dir bound fs) new /\
      match fl with
      | Next (b, mk) =>
          (fs = [] /\ new = [] /\ b = base /\ mk = maker) \/
          (exists pre c, new = pre ++ [c] /\ MakeRevol H c = inr (Some b) /\
                         mk = Some b)
      | Return _ => False
      | Throw e => new <> [] /\ (e = nd \/ exists k, e = Fault k)
      end.
Proof.
  induction fs as [| face rest IH]; intros base mode maker s cs fl w R.
  - simpl in R. run_in R. injection R as <- <-.
    exists []. rewrite app_nil_r. repeat split; auto.
  - simpl in R. run_in R.
    set (c := mkRevolCall base face sup pnt dir mode true bound) in *.
    assert (Ic : issuedFor sup pnt dir bound (face :: rest) c).
    { unfold issuedFor, c. simpl. auto. }
    destruct (MakeRevol H c) as [k | [shape |]] eqn:M; simpl in R.
    + injection R as <- <-. exists [c]. repeat split; auto.
      * discriminate.
      * right. now exists k.
    + apply IH in R. destruct R as (new & -> & F & P).
      exists (c :: new). rewrite <- app_assoc. split; [reflexivity |]. split.
      * constructor; [exact Ic |].
        eapply Forall_impl; [| exact F]. intros c'. apply issuedFor_cons.
      * destruct fl as [[b mk] | r | e].
        -- right. destruct P as [(-> & -> & -> & ->) | (pre & c' & -> & M' & ->)].
           ++ exists [], c. auto.
           ++ exists (c :: pre), c'. auto.
        -- exact P.
        -- split; [discriminate | apply P].
    + injection R as <- <-. exists [c]. repeat split; auto. discriminate.
Qed.

Lemma logs_checkAxis pnt dir fs : logs (checkAxis pnt dir fs).
Proof.
  induction fs as [| face rest IH]; simpl; auto with footprint.
  destruct (checkLineCrossesFace pnt dir face); auto with footprint.
Qed.

Lemma logs_revolveFaces sup pnt dir bound nd fs :
  forall base mode maker,
    logs (revolveFaces H sup pnt dir bound nd fs base mode maker).
Proof.
  induction fs as [| face rest IH]; intros base mode maker; simpl.
  - auto with footprint.
  - apply logs_bind; [auto with footprint | intros _].
    apply logs_bind; [auto with footprint | intros [shape |]];
      auto with footprint.
Qed.

Lemma logs_sweep method link inv pnt dir base sk angle :
  logs (sweep H method link inv pnt dir base sk angle).
Proof.
  unfold sweep. apply logs_bind; [auto with footprint | intros sup].
  destruct (isUpTo method).
  - apply logs_bind.
    + destruct (Method.eqb method Method.UpToFace); [| auto with footprint].
      apply logs_bind; auto with footprint.
    + intros up. apply logs_bind; [auto with footprint | intros up'].
      apply logs_bind; [apply logs_revolveFaces | intros [b mk]].
      auto with footprint.
  - apply logs_bind; [apply logs_revolveFaces | intros [b mk]].
    auto with footprint.
Qed.

Lemma writes_commit base result : writes (commit H base result).
Proof.
  unfold commit. destruct (negb (IsNull result)); [| auto with footprint].
  apply writes_bind; [auto with footprint | intros refined].
  apply writes_bind; [auto with footprint | intros _].
  apply writes_bind.
  - destruct (negb (IsNull base)); [| auto with footprint].
    apply writes_bind; [auto with footprint | intros [fused |]];
      auto with footprint.
  - intros shape. apply writes_bind; auto with footprint.
Qed.

Lemma writes_tryBody f sk base angle angle2 :
  writes (tryBody H f sk base angle angle2).
Proof.
  unfold tryBody. destruct (IsNull sk); [auto with footprint |].
  destruct (orient f (axisPnt f) (axisDir f) angle angle2 sk) as [sk' angle'].
  apply writes_bind; [auto with footprint | intros _].
  apply writes_bind; [apply logs_writes, logs_checkAxis | intros _].
  apply writes_bind; [apply logs_writes, logs_sweep | intros [b r]].
  apply writes_commit.
Qed.

Lemma sweep_run method link inv pnt dir base sk angle s cs fl w :
  sweep H method link inv pnt dir base sk angle (mkWorld s cs) = (fl, w) ->
  exists new,
    w = mkWorld s (cs ++ new) /\
    Forall (fun c => In (rc_profile c) (faces sk) /\ rc_pnt c = pnt /\
                     rc_dir c = dir /\ sweptBy method angle c) new /\
    match fl with
    | Next (b, r) =>
        (exists pre c, new = pre ++ [c] /\ MakeRevol H c = inr (Some r) /\ b = r) \/
        (new = [] /\ faces sk = [] /\ b = base /\
         r = if isUpTo method then base else NullShape)
    | Return _ => False
    | Throw _ => True
    end.
Proof.
  unfold sweep. intros R. run_in R.
  destruct (getSupportFace H) as [k | sup]; simpl in R.
  { injection R as <- <-. exists []. rewrite app_nil_r. auto. }
  destruct (isUpTo method) eqn:U.
  - destruct (Method.eqb method Method.UpToFace); simpl in R.
    2:{ injection R as <- <-. exists []. rewrite app_nil_r. auto. }
    destruct (getFaceFromLinkSub H link) as [k | up0]; simpl in R.
    { injection R as <- <-. exists []. rewrite app_nil_r. auto. }
    destruct (getUpToFace H (Move up0 inv) base sk method dir) as [k | up];
      simpl in R.
    { injection R as <- <-. exists []. rewrite app_nil_r. auto. }
    destruct (revolveFaces H (Move sup inv) pnt dir (Until up)
                UpToFaceCouldNotRevolve (faces sk) base 2 None
                (mkWorld s cs)) as [fl1 w1] eqn:L.
    apply revolveFaces_run in L. destruct L as (new & -> & F & P).
    exists new. split.
    { destruct fl1 as [[b mk] | r | e]; [ | contradiction | ];
        injection R as <- <-; reflexivity. }
    split.
    { eapply Forall_impl; [| exact F]. intros c (I & _ & Hp & Hd & Hb).
      repeat split; auto. unfold sweptBy. rewrite U. now exists up. }
    destruct fl1 as [[b mk] | r | e]; [ | contradiction | ].
    + injection R as <- <-.
      destruct P as [(E & -> & -> & ->) | (pre & c & -> & M & ->)].
      * right. auto.
      * left. exists pre, c. auto.
    + injection R as <- <-. exact I.
  - destruct (revolveFaces H (Move sup inv) pnt dir (ByAngle angle)
                CouldNotRevolve (faces sk) base 2 None
                (mkWorld s cs)) as [fl1 w1] eqn:L.
    apply revolveFaces_run in L. destruct L as (new & -> & F & P).
    exists new. split.
    { destruct fl1 as [[b mk] | r | e]; [ | contradiction | ];
        injection R as <- <-; reflexivity. }
    split.
    { eapply Forall_impl; [| exact F]. intros c (I & _ & Hp & Hd & Hb).
      repeat split; auto. unfold sweptBy. now rewrite U. }
    destruct fl1 as [[b mk] | r | e]; [ | contradiction | ].
    + injection R as <- <-.
      destruct P as [(E & -> & -> & ->) | (pre & c & -> & M & ->)].
      * right. auto.
      * left. exists pre, c. auto.
    + injection R as <- <-. exact I.
Qed.

(** With the type up to first or up to last the sweep goes no further
    than the support face. *)
Lemma sweep_unsupported method link inv pnt dir base sk angle w :
  isUpTo method = true -> Method.eqb method Method.UpToFace = false ->
  sweep H method link inv pnt dir base sk angle w =
  (match getSupportFace H with
   | inl k => Throw (Fault k)
   | inr _ => Throw UpToFirstLastNotSupported
   end, w).
Proof.
  intros U N. unfold sweep, bind, call, throw, ret. rewrite U, N.
  destruct (getSupportFace H); reflexivity.
Qed.

Lemma commit_run base result s cs fl w :
  commit H base result (mkWorld s cs) = (fl, w) ->
  commitPost H result s cs fl w.
Proof.
  unfold commit. intros R. run_in R.
  destruct (IsNull result) eqn:N; simpl in R.
  { injection R as <- <-. unfold commitPost. auto. }
  destruct (refineShapeIfActive H result) as [k | refined] eqn:R1; simpl in R.
  { injection R as <- <-. unfold commitPost. simpl.
    split; [reflexivity |]. left. now exists k. }
  assert (Late : forall e,
             (e = FusionFailed \/ exists k, e = Fault k) ->
             commitPost H result s cs (Throw e)
                        (mkWorld (set_AddSubShape refined s) cs)).
  { intros e He. unfold commitPost. simpl. split; [reflexivity |].
    right. split; [exact He |]. now exists refined. }
  assert (Done : forall solid,
             commitPost H result s cs (Next tt)
                        (mkWorld (set_Shape solid (set_AddSubShape refined s)) cs)).
  { intros solid. unfold commitPost. simpl. split; [reflexivity |].
    now exists refined, solid. }
  destruct (IsNull base); simpl in R.
  - destruct (getSolid H refined) as [k | solid]; simpl in R;
      injection R as <- <-; [apply Late; right; now exists k | apply Done].
  - destruct (Fuse H base refined) as [k | [fused |]]; simpl in R.
    + injection R as <- <-. apply Late. right. now exists k.
    + destruct (refineShapeIfActive H fused) as [k | refined2]; simpl in R.
      * injection R as <- <-. apply Late. right. now exists k.
      * destruct (getSolid H refined2) as [k | solid]; simpl in R;
          injection R as <- <-; [apply Late; right; now exists k | apply Done].
    + injection R as <- <-. apply Late. now left.
Qed.

Lemma Vector3d_eta (v : Vector3d) : mkVector3d (x v) (y v) (z v) = v.
Proof. destruct v; reflexivity. Qed.

Lemma updateAxis_run f :
  updateAxis H f =
  match getAxis H (getValue (ReferenceAxis f)) (getSubValues (ReferenceAxis f))
                NotParallelWithNormal with
  | inl e => inl e
  | inr (b, d) => inr (set_Base_Axis b d f)
  end.
Proof.
  unfold updateAxis.
  destruct (getAxis H _ _ _) as [e | [b d]]; [reflexivity |].
  now rewrite !Vector3d_eta.
Qed.

Lemma updateAxis_inr f f' :
  updateAxis H f = inr f' ->
  exists b d,
    getAxis H (getValue (ReferenceAxis f)) (getSubValues (ReferenceAxis f))
              NotParallelWithNormal = inr (b, d) /\
    f' = set_Base_Axis b d f.
Proof.
  rewrite updateAxis_run.
  destruct (getAxis H _ _ _) as [e | [b d]]; [discriminate |].
  intros E. injection E as <-. now exists b, d.
Qed.

Lemma tryBody_run f sk base angle angle2 s cs fl w :
  tryBody H f sk base angle angle2 (mkWorld s cs) = (fl, w) ->
  tryBodyCases H f sk base angle angle2 s cs fl w.
Proof.
  unfold tryBody, tryBodyCases, localSketch, sweepAngle, localPnt, localDir.
  cbv zeta. intros R. destruct (IsNull sk) eqn:N.
  { run_in R. injection R as <- <-. left. auto. }
  right. split; [reflexivity |].
  destruct (orient f (axisPnt f) (axisDir f) angle angle2 sk)
    as [sk0 angle0] eqn:O. simpl.
  unfold bind at 1 in R. unfold modify at 1 in R. simpl in R.
  unfold bind at 1 in R. rewrite checkAxis_run in R.
  destruct (existsb _ _) eqn:X.
  { injection R as <- <-. left. auto. }
  right. split; [reflexivity |].
  unfold bind at 1 in R.
  destruct (sweep H (Type_ f) (UpToFace f) (localFrame H f) _ _ _ _ angle0 _)
    as [fl1 w1] eqn:S.
  exists fl1, w1. split; [reflexivity |].
  destruct fl1 as [[b r] | r | e].
  - exact R.
  - injection R as <- <-. auto.
  - injection R as <- <-. auto.
Qed.

Lemma execute_run f r w :
  execute H f = (r, w) -> executeCases H f r w.
Proof.
  unfold execute, executeCases. intros R.
  destruct (360 <? Angle f).
  { injection R as <- <-. left. auto. }
  right. split; [reflexivity |].
  destruct (toRadians (Angle f) <? Precision_Angular).
  { injection R as <- <-. left. auto. }
  right. split; [reflexivity |].
  destruct (getVerifiedFace H) as [e | sk].
  { injection R as <- <-. left. now exists e. }
  right. exists sk. split; [reflexivity |].
  destruct (updateAxis H f) as [e | f'].
  { injection R as <- <-. left. now exists e. }
  right. exists f'. split; [reflexivity |].
  destruct (tryBody H f' sk (baseShape H) _ _ _) as [fl w1] eqn:T.
  exists fl. destruct fl; injection R as <- <-; auto.
Qed.

End Phases.

(** ** Results of a run *)

Section Results.
Context {K : Kernel}.
Variable H : Host.

(** The error returns of the [try] block are those of lines 130, 162 and
    235. *)
Lemma tryBody_returns f sk base angle angle2 s cs r w :
  tryBody H f sk base angle angle2 (mkWorld s cs) = (Return r, w) ->
  r = Error FaceFromSketchFailed \/ r = AxisIntersectsProfile \/
  r = Error NoResult.
Proof.
  intros R. apply tryBody_run in R.
  destruct R as [(_ & E & _) | (_ & [(_ & E & _) | (_ & fl1 & w1 & S & C)])].
  - injection E as <-. auto.
  - injection E as <-. auto.
  - destruct w1 as [s1 cs1]. destruct fl1 as [[b res] | r1 | e].
    + apply commit_run in C. destruct C as (_ & -> & _). auto.
    + apply sweep_run in S. destruct S as (new & _ & _ & []).
    + destruct C as (C & _). discriminate C.
Qed.

Lemma execute_out_of_range f r w :
  execute H f = (r, w) ->
  AngleOutOfRange r ->
  (360 <? Angle f) = true \/ (toRadians (Angle f) <? Precision_Angular) = true.
Proof.
  intros R O. apply execute_run in R.
  destruct R as [(L & _) | (_ & [(S & _) | (_ & R)])]; auto.
  exfalso.
  destruct R as [(e & _ & -> & _) | (sk & _ & [(e & _ & -> & _) | (f' & _ & fl & T & ->)])].
  - destruct O as [O | O]; discriminate O.
  - destruct O as [O | O]; discriminate O.
  - destruct fl as [u | r | e]; simpl in O.
    + destruct O as [O | O]; discriminate O.
    + apply tryBody_returns in T.
      destruct T as [-> | [-> | ->]]; destruct O as [O | O]; discriminate O.
    + destruct O as [O | O]; discriminate O.
Qed.

Lemma execute_Run f r w : execute H f = (r, w) -> Run H f r w.
Proof.
  intros R. apply execute_run in R.
  destruct R as [(L & -> & ->) | (L & [(S & -> & ->) | (S & R)])].
  { now constructor. }
  { now constructor. }
  assert (I : inRange f) by (split; assumption).
  destruct R as [(e & V & -> & ->) | (sk & V & [(e & U & -> & ->) | (g & U & fl & T & ->)])].
  { now constructor. }
  { now apply RunInvalidAxis with sk. }
  destruct (updateAxis_inr _ _ U) as (b & d & _ & Eg).
  assert (T' : tryBody H g sk (baseShape H) (signedAngle g)
                       (toRadians (Angle2 g)) (mkWorld g []) = (fl, w)).
  { subst g. exact T. }
  clear T. apply tryBody_run in T'.
  destruct T' as [(N & -> & ->) | (N & [(X & -> & ->) | (X & fl1 & w1 & S' & C)])].
  { now apply RunNullSketch with sk. }
  { apply RunAxisCrosses with sk; [repeat split; assumption | exact X]. }
  assert (A : reachesAxisCheck H f sk g) by (repeat split; assumption).
  pose proof S' as S2. apply sweep_run in S2. destruct S2 as (new & -> & F & P).
  simpl in *.
  assert (F' : Forall (issued H g sk) new).
  { eapply Forall_impl; [| exact F]. intros c (I1 & I2 & I3 & I4).
    exact (conj I1 (conj I2 (conj I3 I4))). }
  destruct fl1 as [[base result] | r1 | e].
  - eapply RunCommit; eauto.
    destruct P as [P | (P1 & P2 & P3 & P4)]; [left; exact P | right].
    subst base. exact (conj P1 (conj P2 (conj eq_refl P4))).
  - contradiction.
  - destruct C as (-> & ->). simpl. eapply RunSweepThrows; eauto.
Qed.

End Results.

(** * The claims *)

(** C4. [execute] fails with AngleOutOfRange (angle too large or too
    small) exactly when [Angle] exceeds 360 degrees or its value in radians
    is below the angular precision; the failure is decided before anything
    else: the feature is as it was, no revolve was issued, and the outcome
    is the same whatever the document and the kernel answer.  At the
    boundaries, [Angle = 0] and [Angle = 360.0001] (the binary64 nearest to
    it) fail so and [Angle = 360] passes this validation. *)
Theorem angle_validation {K : Kernel} (H : Host) (f : Feature)
    (r : DocumentObjectExecReturn) (w : World) :
  execute H f = (r, w) ->
  (AngleOutOfRange r <->
   (360 <? Angle f) = true \/ (toRadians (Angle f) <? Precision_Angular) = true) /\
  (AngleOutOfRange r ->
   w = mkWorld f [] /\ forall H' : Host, execute H' f = (r, w)) /\
  (Angle f = 0 -> r = Error AngleTooSmall) /\
  (Angle f = 0x1.6800068db8bacp+8 -> r = Error AngleTooLarge) /\
  (Angle f = 360 -> ~ AngleOutOfRange r).
Proof.
  intros R.
  assert (Early : (360 <? Angle f) = true \/
                  (toRadians (Angle f) <? Precision_Angular) = true ->
                  AngleOutOfRange r /\ w = mkWorld f [] /\
                  forall H' : Host, execute H' f = (r, w)).
  { intros O. unfold execute in *.
    destruct (360 <? Angle f).
    - injection R as <- <-. split; [now left | auto].
    - destruct O as [O | O]; [discriminate O |]. rewrite O in *.
      injection R as <- <-. split; [now right | auto]. }
  split; [| split; [| split; [| split]]].
  - split; [apply (execute_out_of_range _ _ R) | apply Early].
  - intros O. apply Early. apply (execute_out_of_range _ _ R O).
  - intros A. unfold execute in R. rewrite A in R.
    change (360 <? 0) with false in R.
    change (toRadians 0 <? Precision_Angular) with true in R.
    now injection R as <- <-.
  - intros A. unfold execute in R. rewrite A in R.
    change (360 <? 0x1.6800068db8bacp+8) with true in R.
    now injection R as <- <-.
  - intros A O. apply (execute_out_of_range _ _ R) in O. rewrite A in O.
    destruct O as [O | O]; vm_compute in O; discriminate O.
Qed.

(** The case of C4 at a feature of the symbolic kernel with [Angle = 0]. *)
Lemma angle_validation_witness :
  let H := Symbolic.host Symbolic.twoFaces None true in
  let f := Symbolic.feature Method.Angle 0 60 false false in
  execute H f = (Error AngleTooSmall, mkWorld f []) /\
  (AngleOutOfRange (Error AngleTooSmall) <->
   (360 <? Angle f) = true \/ (toRadians (Angle f) <? Precision_Angular) = true).
Proof.
  split; [reflexivity |].
  exact (proj1 (angle_validation
                  (Symbolic.host Symbolic.twoFaces None true)
                  (Symbolic.feature Method.Angle 0 60 false false)
                  eq_refl)).
Defined.

(** ** Facts shared by the claims *)

Section Shared.
Context {K : Kernel}.
Variable H : Host.

Lemma axisCrosses_face g sk face :
  In face (faces (sweptProfile H g sk)) ->
  checkLineCrossesFace (localPnt H g) (localDir H g) face = true ->
  axisCrosses H g sk = true.
Proof.
  intros I C. unfold axisCrosses. apply existsb_exists. now exists face.
Qed.

Lemma issued_clear g sk c :
  axisCrosses H g sk = false -> issued H g sk c ->
  checkLineCrossesFace (rc_pnt c) (rc_dir c) (rc_profile c) = false.
Proof.
  intros X (I & -> & -> & _).
  destruct (checkLineCrossesFace _ _ _) eqn:C; [| reflexivity].
  rewrite (axisCrosses_face _ _ _ I C) in X. discriminate X.
Qed.

(** The feature with its axis updated differs from it in [Base] and
    [Axis] alone. *)
Lemma updateAxis_fields f g :
  updateAxis H f = inr g ->
  Type_ g = Type_ f /\ Angle g = Angle f /\ Angle2 g = Angle2 f /\
  ReferenceAxis g = ReferenceAxis f /\ UpToFace g = UpToFace f /\
  Reversed g = Reversed f /\ Midplane g = Midplane f /\
  Placement g = Placement f /\ AddSubShape g = AddSubShape f /\
  Shape g = Shape f.
Proof.
  intros U. apply updateAxis_inr in U. destruct U as (b & d & _ & ->).
  repeat split.
Qed.

(** The calls of a run that got past the axis check, whatever its end. *)
Lemma Run_calls f r w :
  Run H f r w ->
  calls w = [] \/
  exists sk g,
    reachesAxisCheck H f sk g /\ axisCrosses H g sk = false /\
    Forall (issued H g sk) (calls w).
Proof.
  intros R.
  destruct R as [ | | | | | | sk g e new A X S F
                | sk g base result new fl w A X S F P C]; simpl; auto.
  - right. now exists sk, g.
  - right. exists sk, g. apply commit_run in C. destruct C as (-> & _).
    auto.
Qed.

End Shared.

(** C7. Once the profile and the axis are there (the angle is in range,
    the profile is obtained and not null, the axis resolves), an axis
    that crosses any face of the profile makes [execute] fail with
    AxisIntersectsProfile with no revolve issued; and in every run, every
    revolve that is issued is given a face that its axis does not cross. *)
Theorem axis_never_crosses_profile {K : Kernel} (H : Host) (f : Feature)
    (r : DocumentObjectExecReturn) (w : World) :
  execute H f = (r, w) ->
  Forall (fun c => checkLineCrossesFace (rc_pnt c) (rc_dir c) (rc_profile c) = false)
         (calls w) /\
  forall sk g face,
    reachesAxisCheck H f sk g ->
    In face (faces (sweptProfile H g sk)) ->
    checkLineCrossesFace (localPnt H g) (localDir H g) face = true ->
    r = AxisIntersectsProfile /\ calls w = [].
Proof.
  intros E. apply execute_Run in E. split.
  - destruct (Run_calls E) as [-> | (sk & g & _ & X & F)]; [constructor |].
    eapply Forall_impl; [| exact F]. intros c. now apply issued_clear.
  - intros sk g face A I C.
    pose proof (axisCrosses_face _ _ _ _ I C) as X.
    destruct A as ((L & S) & V & U & N).
    destruct E as [L' | L' S' | e I' V' | sk' e I' V' U' | sk' g' I' V' U' N'
                  | sk' g' A' X' | sk' g' e new A' X' | sk' g' b res new fl w A' X'];
      try congruence.
    + auto.
    + destruct A' as (_ & V' & U' & _).
      assert (sk' = sk) by congruence. assert (g' = g) by congruence.
      subst. congruence.
    + destruct A' as (_ & V' & U' & _).
      assert (sk' = sk) by congruence. assert (g' = g) by congruence.
      subst. congruence.
Qed.

(** The case of C7 where face 0 of a two-face profile lies across the axis. *)
Lemma axis_never_crosses_profile_witness :
  let H := Symbolic.host (Symbolic.Compound (Symbolic.Face 1) (Symbolic.Face 0))
                         None true in
  let f := Symbolic.feature Method.Angle 360 60 false false in
  fst (execute H f) = AxisIntersectsProfile /\ calls (snd (execute H f)) = [].
Proof.
  intros H f.
  refine (proj2 (axis_never_crosses_profile H f (surjective_pairing _))
                (Symbolic.Compound (Symbolic.Face 1) (Symbolic.Face 0))
                (set_Base_Axis (mkVector3d 0 0 0) (mkVector3d 0 1 0) f)
                (Symbolic.Moved (Symbolic.Face 0)
                   (Symbolic.Inverse (Symbolic.OfPlacement 7)))
                _ _ _).
  - repeat split.
  - simpl. right. now left.
  - reflexivity.
Defined.

(** C3, as the code has it.  With the type up to first or up to last
    [execute] never succeeds, issues no revolve and leaves [Shape] and
    [AddSubShape] as they were; the failure is UnsupportedTermination
    exactly when the run gets to the selection of the termination, that
    is when the checks ahead of it pass: the angle is in range, the
    profile is obtained and not null, the axis resolves and crosses no
    face, the support face is obtained. *)
Theorem up_to_first_last_unsupported {K : Kernel} (H : Host) (f : Feature)
    (r : DocumentObjectExecReturn) (w : World) :
  Type_ f = Method.UpToFirst \/ Type_ f = Method.UpToLast ->
  execute H f = (r, w) ->
  isFailure r = true /\ calls w = [] /\
  Shape (self w) = Shape f /\ AddSubShape (self w) = AddSubShape f /\
  (r = UnsupportedTermination <-> reachesTermination H f).
Proof.
  intros T E. apply execute_Run in E.
  assert (Sw : forall sk g w0,
             updateAxis H f = inr g ->
             sweepOf H g sk w0 =
             (match getSupportFace H with
              | inl k => Throw (Fault k)
              | inr _ => Throw UpToFirstLastNotSupported
              end, w0)).
  { intros sk g w0 U. apply updateAxis_fields in U. destruct U as (Ty & _).
    unfold sweepOf. apply sweep_unsupported; rewrite Ty;
      destruct T as [-> | ->]; reflexivity. }
  assert (Inv : forall x : Prop,
             reachesTermination H f ->
             (forall sk g sup,
                inRange f -> getVerifiedFace H = inr sk ->
                updateAxis H f = inr g -> IsNull sk = false ->
                axisCrosses H g sk = false -> getSupportFace H = inr sup -> x) ->
             x).
  { intros x (sk & g & sup & (I & V & U & N) & X & G) k. now apply (k sk g sup). }
  destruct E as [L | L S | e I V | sk e I V U | sk g I V U N
                | sk g A X | sk g e new A X S F
                | sk g base result new fl w A X S F P C]; simpl.
  - repeat split; try reflexivity. 1: discriminate.
    intros R. apply (Inv _ R). intros sk g sup (L0 & S0) V0 U0 N0 X0 G0.
    congruence.
  - repeat split; try reflexivity. 1: discriminate.
    intros R. apply (Inv _ R). intros sk g sup (L0 & S0) V0 U0 N0 X0 G0.
    congruence.
  - repeat split; try reflexivity. 1: discriminate.
    intros R. apply (Inv _ R). intros sk g sup I0 V0 U0 N0 X0 G0.
    congruence.
  - repeat split; try reflexivity. 1: discriminate.
    intros R. apply (Inv _ R). intros sk0 g sup I0 V0 U0 N0 X0 G0.
    congruence.
  - destruct (updateAxis_fields _ _ U) as (_ & _ & _ & _ & _ & _ & _ & _ & Ea & Es).
    repeat split; try assumption. 1: discriminate.
    intros R. apply (Inv _ R). intros sk0 g0 sup I0 V0 U0 N0 X0 G0.
    congruence.
  - destruct A as (I & V & U & N).
    destruct (updateAxis_fields _ _ U) as (_ & _ & _ & _ & _ & _ & _ & _ & Ea & Es).
    repeat split; try assumption. 1: discriminate.
    intros R. apply (Inv _ R). intros sk0 g0 sup I0 V0 U0 N0 X0 G0.
    assert (sk0 = sk) by congruence. assert (g0 = g) by congruence.
    subst. congruence.
  - pose proof A as (I & V & U & N).
    destruct (updateAxis_fields _ _ U) as (_ & _ & _ & _ & _ & _ & _ & _ & Ea & Es).
    rewrite (Sw sk g _ U) in S.
    assert (new = []) as -> by (injection S as _ S; exact (eq_sym S)).
    repeat split; try assumption.
    + destruct (getSupportFace H) as [k | sup] eqn:G.
      * injection S as <-. discriminate.
      * intros _. exists sk, g, sup. auto.
    + intros R. apply (Inv _ R). intros sk0 g0 sup I0 V0 U0 N0 X0 G0.
      rewrite G0 in S. injection S as <-. reflexivity.
  - destruct A as (I & V & U & N). rewrite (Sw sk g _ U) in S.
    destruct (getSupportFace H); discriminate S.
Qed.

(** The case of C3 where the checks pass and the type is up to first. *)
Lemma up_to_first_last_unsupported_witness :
  let H := Symbolic.host Symbolic.twoFaces None true in
  let f := Symbolic.feature Method.UpToFirst 360 60 false false in
  (Type_ f = Method.UpToFirst \/ Type_ f = Method.UpToLast) /\
  isFailure (fst (execute H f)) = true /\ calls (snd (execute H f)) = [] /\
  Shape (self (snd (execute H f))) = Shape f /\
  AddSubShape (self (snd (execute H f))) = AddSubShape f /\
  (fst (execute H f) = UnsupportedTermination <-> reachesTermination H f).
Proof.
  intros H f. split; [now left |].
  exact (up_to_first_last_unsupported H f (or_introl eq_refl)
                                      (surjective_pairing _)).
Defined.

(** C3 as stated fails: with the type up to first and an angle of 400
    degrees the failure is the angle's, not UnsupportedTermination. *)
Lemma unsupported_termination_counterexample :
  let H := Symbolic.host Symbolic.twoFaces None true in
  let f := Symbolic.feature Method.UpToFirst 400 60 false false in
  Type_ f = Method.UpToFirst /\
  ~ (fst (execute H f) = UnsupportedTermination).
Proof.
  split; [reflexivity |]. vm_compute. discriminate.
Qed.

(** C9. [suggestReversed] answers false when the axis does not resolve
    and leaves the feature ([Base] and [Axis] with it) as it was; when
    the axis resolves, [Base] and [Axis] are set to it and the answer is
    true exactly when the reversed angle of that axis is below zero. *)
Theorem suggestReversed_spec {K : Kernel} (H : Host) (f : Feature) :
  (forall e,
     getAxis H (getValue (ReferenceAxis f)) (getSubValues (ReferenceAxis f))
               NotParallelWithNormal = inl e ->
     suggestReversed H f = (false, f)) /\
  (forall b d,
     getAxis H (getValue (ReferenceAxis f)) (getSubValues (ReferenceAxis f))
               NotParallelWithNormal = inr (b, d) ->
     snd (suggestReversed H f) = set_Base_Axis b d f /\
     (fst (suggestReversed H f) = true <->
      (getReversedAngle H b d <? 0) = true)).
Proof.
  unfold suggestReversed. rewrite updateAxis_run. split.
  - intros e ->. reflexivity.
  - intros b d ->. simpl. split; [reflexivity | tauto].
Qed.

(** The two cases of C9 on the symbolic kernel: an unset reference, and a
    reference that resolves to the Y axis, whose reversed angle is
    negative there. *)
Lemma suggestReversed_spec_witness :
  let H := Symbolic.host Symbolic.twoFaces None true in
  let f := Symbolic.feature Method.Angle 360 60 false false in
  let f0 := mkFeature Method.Angle (mkVector3d 1 2 3) (mkVector3d 0 0 1) 360 60
                      Symbolic.noRef Symbolic.noRef false false 3%nat
                      Symbolic.Null Symbolic.Null in
  suggestReversed H f0 = (false, f0) /\
  (fst (suggestReversed H f) = true <->
   (getReversedAngle H (mkVector3d 0 0 0) (mkVector3d 0 1 0) <? 0) = true).
Proof.
  intros H f f0. split.
  - exact (proj1 (suggestReversed_spec H f0) _ eq_refl).
  - exact (proj2 (proj2 (suggestReversed_spec H f) _ _ eq_refl)).
Defined.

(** ** Success and failure of a run *)

Section Outcomes.
Context {K : Kernel}.
Variable H : Host.

(** A successful run: the sweep gave [result], which was refined into
    [AddSubShape], and [Shape] was set last. *)
Lemma success_inv f w :
  execute H f = (StdReturn, w) ->
  exists sk g base result refined solid,
    reachesAxisCheck H f sk g /\ axisCrosses H g sk = false /\
    sweepOf H g sk (mkWorld (placed H g) []) =
      (Next (base, result), mkWorld (placed H g) (calls w)) /\
    Forall (issued H g sk) (calls w) /\
    sweptResult H g sk (calls w) base result /\
    IsNull result = false /\
    refineShapeIfActive H result = inr refined /\
    self w = set_Shape solid (set_AddSubShape refined (placed H g)).
Proof.
  intros E. apply execute_Run in E.
  remember StdReturn as r eqn:Er.
  destruct E as [ | | | | | | | sk g base result new fl w A X S F P C];
    try discriminate Er.
  destruct fl as [u | r | e]; simpl in Er; [| | discriminate Er].
  - apply commit_run in C. destruct C as (Ec & refined & solid & N & R1 & Es).
    simpl in Ec. subst new. now exists sk, g, base, result, refined, solid.
  - apply commit_run in C. destruct C as (_ & -> & _). discriminate Er.
Qed.

Lemma revolveFaces_set_Fuse fuse sup pnt dir bound nd fs :
  forall base mode maker w,
    revolveFaces (set_Fuse fuse H) sup pnt dir bound nd fs base mode maker w =
    revolveFaces H sup pnt dir bound nd fs base mode maker w.
Proof.
  induction fs as [| face rest IH]; intros base mode maker w; [reflexivity |].
  simpl. unfold bind, record, call. simpl.
  destruct (MakeRevol H _) as [k | [shape |]]; simpl; auto.
Qed.

Lemma sweepOf_set_Fuse fuse g sk w :
  sweepOf (set_Fuse fuse H) g sk w = sweepOf H g sk w.
Proof.
  unfold sweepOf, sweep, bind, call. simpl.
  destruct (getSupportFace H) as [k | sup]; simpl; [reflexivity |].
  destruct (isUpTo (Type_ g)).
  - destruct (Method.eqb (Type_ g) Method.UpToFace); [| reflexivity].
    destruct (getFaceFromLinkSub H (UpToFace g)); simpl; [reflexivity |].
    destruct (getUpToFace H _ _ _ _ _); simpl; [reflexivity |].
    now rewrite revolveFaces_set_Fuse.
  - now rewrite revolveFaces_set_Fuse.
Qed.

(** How lines 217-235 fail: with no result, before the store of line 220
    (the refinement of the result), or after it. *)
Lemma commit_failure base result s cs fl w :
  commit H base result (mkWorld s cs) = (fl, w) ->
  match fl with
  | Next _ => True
  | Return r => r = Error NoResult /\ IsNull result = true /\ w = mkWorld s cs
  | Throw t =>
      IsNull result = false /\
      ((exists k, refineShapeIfActive H result = inl k /\ t = Fault k /\
                  w = mkWorld s cs) \/
       (exists refined,
          refineShapeIfActive H result = inr refined /\
          failsLate H base refined t /\
          w = mkWorld (set_AddSubShape refined s) cs))
  end.
Proof.
  unfold commit, failsLate, bind, call, ret, throw, modify, doReturn. intros R.
  destruct (IsNull result) eqn:N; simpl in *.
  { injection R as <- <-. auto. }
  destruct (refineShapeIfActive H result) as [k | refined] eqn:R1; simpl in *.
  { injection R as <- <-. split; [reflexivity |]. left. now exists k. }
  destruct (IsNull base) eqn:Nb; simpl in *.
  - destruct (getSolid H refined) as [k | solid] eqn:G; simpl in *;
      injection R as <- <-; [| exact I].
    split; [reflexivity |]. right. exists refined. rewrite G.
    split; [reflexivity |]. split; [now exists k | reflexivity].
  - destruct (Fuse H base refined) as [k | [fused |]] eqn:F; simpl in *.
    + injection R as <- <-. split; [reflexivity |]. right. exists refined.
      rewrite F. auto.
    + destruct (refineShapeIfActive H fused) as [k | refined2] eqn:R2;
        simpl in *.
      * injection R as <- <-. split; [reflexivity |]. right. exists refined.
        rewrite F, R2. auto.
      * destruct (getSolid H refined2) as [k | solid] eqn:G; simpl in *;
          injection R as <- <-; [| exact I].
        split; [reflexivity |]. right. exists refined. rewrite F, R2, G.
        split; [reflexivity |]. split; [now exists k | reflexivity].
    + injection R as <- <-. split; [reflexivity |]. right. exists refined.
      rewrite F. auto.
Qed.

(** A run has one sweep: the one that reaches the store. *)
Lemma reachesStore_sweep f new base result refined sk g fl w1 :
  reachesStore H f new base result refined ->
  reachesAxisCheck H f sk g ->
  sweepOf H g sk (mkWorld (placed H g) []) = (fl, w1) ->
  axisCrosses H g sk = false /\ fl = Next (base, result) /\
  w1 = mkWorld (placed H g) new /\
  IsNull result = false /\ refineShapeIfActive H result = inr refined.
Proof.
  intros (sk0 & g0 & (_ & V0 & U0 & _) & X0 & S0 & _ & N0 & R0)
         (_ & V & U & _) S.
  assert (sk0 = sk) by congruence. assert (g0 = g) by congruence. subst.
  rewrite S0 in S. injection S as <- <-. auto.
Qed.

(** A failed run: [Shape] is as it was; either the run never got to the
    store of line 220 and [AddSubShape] is as it was, or it got there and
    failed in lines 222-232, with [AddSubShape] set. *)
Lemma failure_cases f e w :
  execute H f = (Error e, w) ->
  Shape (self w) = Shape f /\
  (((forall new base result refined,
       ~ reachesStore H f new base result refined) /\
    AddSubShape (self w) = AddSubShape f /\ e <> Caught FusionFailed) \/
   (exists base result refined t,
      reachesStore H f (calls w) base result refined /\
      e = Caught t /\ failsLate H base refined t /\
      AddSubShape (self w) = refined)).
Proof.
  intros E. apply execute_Run in E.
  remember (Error e) as r eqn:Er.
  assert (Placed : forall g new,
             updateAxis H f = inr g ->
             Shape (self (mkWorld (placed H g) new)) = Shape f /\
             AddSubShape (self (mkWorld (placed H g) new)) = AddSubShape f).
  { intros g new U.
    destruct (updateAxis_fields _ _ U) as (_ & _ & _ & _ & _ & _ & _ & _ & Ea & Es).
    simpl. auto. }
  destruct E as [L | L S | e0 I V | sk e0 I V U | sk g I V U N
                | sk g A X | sk g e0 new A X S F
                | sk g base result new fl w A X S F P C].
  - injection Er as <-. simpl. split; [reflexivity |]. left.
    split; [| split; [reflexivity | discriminate]].
    intros new base result refined (sk & g & ((L0 & _) & _) & _). congruence.
  - injection Er as <-. simpl. split; [reflexivity |]. left.
    split; [| split; [reflexivity | discriminate]].
    intros new base result refined (sk & g & ((_ & S0) & _) & _). congruence.
  - injection Er as <-. simpl. split; [reflexivity |]. left.
    split; [| split; [reflexivity | discriminate]].
    intros new base result refined (sk & g & (_ & V0 & _) & _). congruence.
  - injection Er as <-. simpl. split; [reflexivity |]. left.
    split; [| split; [reflexivity | discriminate]].
    intros new base result refined (sk0 & g & (_ & _ & U0 & _) & _). congruence.
  - destruct (updateAxis_fields _ _ U) as (_ & _ & _ & _ & _ & _ & _ & _ & Ea & Es).
    injection Er as <-. simpl. split; [exact Es |]. left.
    split; [| split; [exact Ea | discriminate]].
    intros new base result refined (sk0 & g0 & (_ & V0 & _ & N0) & _).
    congruence.
  - pose proof A as (_ & _ & U & _). destruct (Placed g [] U) as (Es & Ea).
    injection Er as <-. split; [exact Es |]. left.
    split; [| split; [exact Ea | discriminate]].
    intros new base result refined St.
    destruct (sweepOf H g sk (mkWorld (placed H g) [])) as [fl1 w1] eqn:S.
    destruct (reachesStore_sweep St A S) as (X0 & _). congruence.
  - pose proof A as (_ & _ & U & _). destruct (Placed g new U) as (Es & Ea).
    injection Er as <-. split; [exact Es |]. left.
    assert (No : forall new0 base result refined,
               ~ reachesStore H f new0 base result refined).
    { intros new0 base result refined St.
      destruct (reachesStore_sweep St A S) as (_ & Q & _). discriminate Q. }
    split; [exact No |]. split; [exact Ea |].
    intros Ef. injection Ef as ->.
    unfold sweepOf in S. clear - S. unfold sweep in S.
    unfold bind, call, ret, throw in S.
    destruct (getSupportFace H); [discriminate S |].
    destruct (isUpTo (Type_ g)).
    + destruct (Method.eqb (Type_ g) Method.UpToFace); [| discriminate S].
      destruct (getFaceFromLinkSub H (UpToFace g)); [discriminate S |].
      destruct (getUpToFace H _ _ _ _ _); [discriminate S |].
      destruct (revolveFaces H _ _ _ _ _ _ _ _ _ _) as [fl1 w1] eqn:L.
      apply revolveFaces_run in L. destruct L as (n & _ & _ & P).
      destruct fl1 as [[b mk] | r | e]; [discriminate S | contradiction |].
      injection S as -> _. destruct P as (_ & [P | (k & P)]); discriminate P.
    + destruct (revolveFaces H _ _ _ _ _ _ _ _ _ _) as [fl1 w1] eqn:L.
      apply revolveFaces_run in L. destruct L as (n & _ & _ & P).
      destruct fl1 as [[b mk] | r | e]; [discriminate S | contradiction |].
      injection S as -> _. destruct P as (_ & [P | (k & P)]); discriminate P.
  - pose proof A as (_ & _ & U & _). destruct (Placed g new U) as (Es & Ea).
    simpl in Es, Ea.
    pose proof C as C'. apply commit_run in C'. destruct C' as (Ec & _).
    simpl in Ec. apply commit_failure in C.
    destruct fl as [u | r | t]; simpl in Er; [discriminate Er | |].
    + destruct C as (-> & N & ->). injection Er as <-.
      split; [exact Es |]. left. split; [| split; [exact Ea | discriminate]].
      intros new0 base0 result0 refined St.
      destruct (reachesStore_sweep St A S) as (_ & Q & _ & N0 & _).
      injection Q as <- <-. congruence.
    + injection Er as <-.
      destruct C as (N & [(k & R1 & -> & ->) | (refined & R1 & Late & ->)]).
      * split; [exact Es |]. left. split; [| split; [exact Ea | discriminate]].
        intros new0 base0 result0 refined St.
        destruct (reachesStore_sweep St A S) as (_ & Q & _ & _ & R0).
        injection Q as <- <-. congruence.
      * simpl. split; [exact Es |]. right.
        exists base, result, refined, t.
        split; [| auto]. exists sk, g. auto 10.
Qed.

End Outcomes.

(** C1, as the code has it.  A failure of [execute] leaves [Shape] as it
    was before the call, for every error.  For [AddSubShape] the store of
    line 220 decides.  A run that fails before it leaves [AddSubShape] as
    it was: so do all the errors returned, the revolve that is not done,
    the termination that is not supported, and a sweep that throws (a
    fault while revolving), that leaves no result or whose result cannot
    be refined.  A run that fails after it, in lines 222-232, leaves in
    [AddSubShape] the refined result of its own sweep, the shape of the
    last revolve it issued; the error is then FusionFailed or the fault of
    the fuse, of the second refinement or of [getSolid].  FusionFailed is
    always of the second kind: the fuse of the base with the shape already
    stored was not done. *)
Theorem failure_keeps_Shape {K : Kernel} (H : Host) (f : Feature)
    (e : Failure) (w : World) :
  execute H f = (Error e, w) ->
  Shape (self w) = Shape f /\
  (((forall new base result refined,
       ~ reachesStore H f new base result refined) /\
    AddSubShape (self w) = AddSubShape f /\ e <> Caught FusionFailed) \/
   (exists base result refined t,
      reachesStore H f (calls w) base result refined /\
      e = Caught t /\ failsLate H base refined t /\
      AddSubShape (self w) = refined)) /\
  (e <> Caught FusionFailed -> (forall k, e <> Caught (Fault k)) ->
   AddSubShape (self w) = AddSubShape f) /\
  (forall sk g fl w1,
     reachesAxisCheck H f sk g ->
     sweepOf H g sk (mkWorld (placed H g) []) = (fl, w1) ->
     match fl with
     | Next (_, result) =>
         IsNull result = true \/
         exists k, refineShapeIfActive H result = inl k
     | _ => True
     end ->
     AddSubShape (self w) = AddSubShape f) /\
  (e = Caught FusionFailed ->
   exists base result refined,
     reachesStore H f (calls w) base result refined /\
     IsNull base = false /\ Fuse H base refined = inr None /\
     AddSubShape (self w) = refined).
Proof.
  intros E. apply failure_cases in E. destruct E as (Es & D).
  split; [exact Es |]. split; [exact D |]. split; [| split].
  - intros NF NK.
    destruct D as [(_ & Ea & _) | (base & result & refined & t & _ & -> & Late & _)];
      [exact Ea | exfalso].
    unfold failsLate in Late.
    destruct (IsNull base).
    + destruct Late as (k & _ & ->). now apply (NK k).
    + destruct (Fuse H base refined) as [k | [fused |]].
      * subst t. now apply (NK k).
      * destruct (refineShapeIfActive H fused) as [k | refined2].
        -- subst t. now apply (NK k).
        -- destruct Late as (k & _ & ->). now apply (NK k).
      * subst t. now apply NF.
  - intros sk g fl w1 A S Q.
    destruct D as [(_ & Ea & _) | (base & result & refined & t & St & _)];
      [exact Ea | exfalso].
    destruct (@reachesStore_sweep _ H f _ _ _ _ sk g fl w1 St A S)
      as (_ & -> & _ & N & R1).
    destruct Q as [Q | (k & Q)]; congruence.
  - intros ->.
    destruct D as [(_ & _ & NF) | (base & result & refined & t & St & Et & Late & Ea)];
      [now elim NF |].
    injection Et as <-. exists base, result, refined.
    split; [exact St |]. unfold failsLate in Late.
    destruct (IsNull base).
    + destruct Late as (k & _ & Q). discriminate Q.
    + destruct (Fuse H base refined) as [k | [fused |]].
      * discriminate Late.
      * destruct (refineShapeIfActive H fused) as [k | refined2].
        -- discriminate Late.
        -- destruct Late as (k & _ & Q). discriminate Q.
      * auto.
Qed.

(** The case of C1 where the fuse with a base shape is not done: the run
    issued two revolves and [AddSubShape] holds the refined shape of the
    second. *)
Lemma failure_keeps_Shape_witness :
  let H := Symbolic.host Symbolic.twoFaces (Some (Symbolic.Face 50)) false in
  let f := Symbolic.feature Method.Angle 360 60 false false in
  let w := snd (execute H f) in
  fst (execute H f) = Error (Caught FusionFailed) /\
  Shape (self w) = Shape f /\
  exists base result refined,
    reachesStore H f (calls w) base result refined /\
    IsNull base = false /\ Fuse H base refined = inr None /\
    AddSubShape (self w) = refined.
Proof.
  intros H f w. split; [reflexivity |].
  pose proof (@failure_keeps_Shape Symbolic.kernel H f (Caught FusionFailed)
                (snd (execute H f)) eq_refl) as (Es & _ & _ & _ & Ef).
  exact (conj Es (Ef eq_refl)).
Defined.

(** C1 as stated fails: when the fuse is not done the run fails with
    FusionFailed and [AddSubShape] has already been set to the refined
    swept shape. *)
Lemma failure_mutates_AddSubShape :
  let H := Symbolic.host Symbolic.twoFaces (Some (Symbolic.Face 50)) false in
  let f := Symbolic.feature Method.Angle 360 60 false false in
  fst (execute H f) = Error (Caught FusionFailed) /\
  ~ (Shape (self (snd (execute H f))) = Shape f /\
     AddSubShape (self (snd (execute H f))) = AddSubShape f).
Proof.
  split; [reflexivity |]. intros (_ & E). vm_compute in E. discriminate E.
Qed.


(** ** The sweep specification *)

Section SweepSpecification.
Context {K : Kernel}.
Variable H : Host.

Lemma calls_issued f r w sk g c :
  execute H f = (r, w) ->
  getVerifiedFace H = inr sk -> updateAxis H f = inr g ->
  In c (calls w) -> issued H g sk c.
Proof.
  intros E V U I. apply execute_Run in E.
  destruct (Run_calls E) as [Ec | (sk0 & g0 & (_ & V0 & U0 & _) & _ & F)].
  - rewrite Ec in I. contradiction.
  - assert (sk0 = sk) by congruence. assert (g0 = g) by congruence. subst.
    rewrite Forall_forall in F. now apply F.
Qed.

(** With [Midplane] the profile is turned back by half the angle and the
    angle is swept as it is, whatever the type. *)
Lemma midplane_sweep g sk :
  Midplane g = true ->
  sweptProfile H g sk =
    Move (Move sk (Location (SetRotation (axisPnt g) (axisDir g)
                                         (toRadians (Angle g) * (-1) / 2))))
         (localFrame H g) /\
  sweptAngle g sk = toRadians (Angle g).
Proof.
  intros M. unfold sweptProfile, sweptAngle, localSketch, sweepAngle,
    signedAngle, reverseAngle, orient.
  rewrite M, andb_false_r. simpl. auto.
Qed.

(** Two angles without [Midplane]: the profile is turned back by the
    second angle, which is added to the angle swept. *)
Lemma two_angles_sweep_spec g sk :
  Midplane g = false -> Type_ g = Method.TwoAngles ->
  sweptProfile H g sk =
    Move (Move sk (Location (SetRotation (axisPnt g) (axisDir g)
                                         (toRadians (Angle2 g) * (-1)))))
         (localFrame H g) /\
  sweptAngle g sk =
    (if Reversed g then toRadians (Angle g) * (-1) else toRadians (Angle g))
    + toRadians (Angle2 g).
Proof.
  intros M T. unfold sweptProfile, sweptAngle, localSketch, sweepAngle,
    signedAngle, reverseAngle, orient.
  rewrite M, T, andb_true_r. simpl. auto.
Qed.

(** The type [Angle] without [Midplane]: the profile as it is, the angle
    reversed if selected. *)
Lemma angle_sweep_spec g sk :
  Midplane g = false -> Type_ g = Method.Angle ->
  sweptProfile H g sk = Move sk (localFrame H g) /\
  sweptAngle g sk =
    if Reversed g then toRadians (Angle g) * (-1) else toRadians (Angle g).
Proof.
  intros M T. unfold sweptProfile, sweptAngle, localSketch, sweepAngle,
    signedAngle, reverseAngle, orient.
  rewrite M, T, andb_true_r. simpl. auto.
Qed.

(** ** Properties that a run does not read *)

Lemma apply_commutes (T : Feature -> Feature) (u : Update) (s : Feature) :
  (forall p s, T (set_Placement p s) = set_Placement p (T s)) ->
  (forall a s, T (set_AddSubShape a s) = set_AddSubShape a (T s)) ->
  (forall a s, T (set_Shape a s) = set_Shape a (T s)) ->
  apply u (T s) = T (apply u s).
Proof.
  intros Cp Ca Cs. destruct u as [[p |] [a |] [sh |]]; unfold apply; simpl;
    rewrite ?Cs, ?Ca, ?Cp; reflexivity.
Qed.

(** A change [T] of the feature that commutes with what a run writes and
    that the [try] block does not see is carried through the run. *)
Lemma execute_transport (T : Feature -> Feature) f r w :
  (forall b d s, T (set_Base_Axis b d s) = set_Base_Axis b d (T s)) ->
  (forall p s, T (set_Placement p s) = set_Placement p (T s)) ->
  (forall a s, T (set_AddSubShape a s) = set_AddSubShape a (T s)) ->
  (forall a s, T (set_Shape a s) = set_Shape a (T s)) ->
  Angle (T f) = Angle f -> ReferenceAxis (T f) = ReferenceAxis f ->
  (forall b d sk w0,
     tryBody H (T (set_Base_Axis b d f)) sk (baseShape H) (signedAngle (T f))
             (toRadians (Angle2 (T f))) w0 =
     tryBody H (set_Base_Axis b d f) sk (baseShape H) (signedAngle f)
             (toRadians (Angle2 f)) w0) ->
  execute H f = (r, w) ->
  execute H (T f) = (r, mkWorld (T (self w)) (calls w)).
Proof.
  intros Cb Cp Ca Cs EA ER ET E. unfold execute in *.
  rewrite !updateAxis_run in *. rewrite EA, ER.
  destruct (360 <? Angle f); [now injection E as <- <- |].
  destruct (toRadians (Angle f) <? Precision_Angular);
    [now injection E as <- <- |].
  destruct (getVerifiedFace H) as [e | sk]; [now injection E as <- <- |].
  destruct (getAxis H _ _ _) as [e | [b d]]; [now injection E as <- <- |].
  rewrite <- Cb.
  destruct (tryBody H (set_Base_Axis b d f) sk (baseShape H) _ _ _)
    as [fl w1] eqn:R.
  destruct (@writes_replay _ _ _ _ _ _ _ (writes_tryBody H _ _ _ _ _) R)
    as (u & new & -> & Re).
  assert (R' : tryBody H (T (set_Base_Axis b d f)) sk (baseShape H)
                       (reverseAngle (T f) (toRadians (Angle f)))
                       (toRadians (Angle2 (T f)))
                       (mkWorld (T (set_Base_Axis b d f)) []) =
               (fl, mkWorld (T (apply u (set_Base_Axis b d f))) ([] ++ new))).
  { rewrite <- (apply_commutes T u _ Cp Ca Cs). rewrite <- Re.
    rewrite <- ET. unfold signedAngle. now rewrite EA. }
  rewrite R'. destruct fl; injection E as <- <-; reflexivity.
Qed.

End SweepSpecification.



(** C6, as the code has it.  With the type [TwoAngles] and [Midplane]
    unset, the profile revolved is the one turned about the resolved axis
    by -radians([Angle2]) and then moved into the local frame, and every
    revolve sweeps by a + radians([Angle2]), where a is radians([Angle]),
    negated when [Reversed] is set. *)
Theorem two_angles_sweep {K : Kernel} (H : Host) (f : Feature)
    (r : DocumentObjectExecReturn) (w : World) :
  Type_ f = Method.TwoAngles -> Midplane f = false ->
  execute H f = (r, w) ->
  forall sk g c,
    getVerifiedFace H = inr sk -> updateAxis H f = inr g -> In c (calls w) ->
    rc_bound c =
      ByAngle ((if Reversed f then toRadians (Angle f) * (-1)
                else toRadians (Angle f)) + toRadians (Angle2 f)) /\
    In (rc_profile c)
       (faces (Move (Move sk (Location
                                (SetRotation (axisPnt g) (axisDir g)
                                             (toRadians (Angle2 f) * (-1)))))
                    (localFrame H g))) /\
    rc_pnt c = localPnt H g /\ rc_dir c = localDir H g.
Proof.
  intros T M E sk g c V U I.
  destruct (@calls_issued _ H f r w sk g c E V U I) as (Ip & Ep & Ed & B).
  destruct (@updateAxis_fields _ H f g U) as (Ty & EA & EA2 & _ & _ & ERv & EM & _).
  rewrite <- EM in M. rewrite <- Ty in T.
  destruct (@two_angles_sweep_spec _ H g sk M T) as (Es & Ea).
  rewrite Es, EA2 in Ip. rewrite Ea, EA, EA2, ERv in B.
  unfold sweptBy in B. rewrite T in B. simpl in B.
  repeat split; assumption.
Qed.

(** The case of C6 with [Angle = 30], [Angle2 = 20], not reversed: the
    profile is turned by -radians(20) and swept by
    radians(30) + radians(20). *)
Lemma two_angles_sweep_witness :
  let H := Symbolic.host Symbolic.twoFaces None true in
  let f := Symbolic.feature Method.TwoAngles 30 20 false false in
  Forall (fun c => rc_bound c = ByAngle (toRadians 30 + toRadians 20))
         (calls (snd (execute H f))) /\
  List.length (calls (snd (execute H f))) = 2%nat.
Proof.
  intros H f. split; [| reflexivity].
  apply Forall_forall. intros c I.
  exact (proj1 (two_angles_sweep H f eq_refl eq_refl (surjective_pairing _)
                                 (sk := Symbolic.twoFaces)
                                 (g := set_Base_Axis (mkVector3d 0 0 0)
                                                     (mkVector3d 0 1 0) f)
                                 c eq_refl eq_refl I)).
Defined.

(** C6 as stated fails when [Reversed] is set: with [Angle = 30] and
    [Angle2 = 20] the revolves sweep by -radians(30) + radians(20), not by
    radians(30) + radians(20). *)
Lemma two_angles_reversed_counterexample :
  let H := Symbolic.host Symbolic.twoFaces None true in
  let f := Symbolic.feature Method.TwoAngles 30 20 true false in
  Type_ f = Method.TwoAngles /\ Midplane f = false /\
  exists c,
    In c (calls (snd (execute H f))) /\
    rc_bound c = ByAngle (toRadians 30 * (-1) + toRadians 20) /\
    rc_bound c <> ByAngle (toRadians (Angle f) + toRadians (Angle2 f)).
Proof.
  split; [reflexivity |]. split; [reflexivity |].
  eexists. split; [left; reflexivity |]. split; [reflexivity |].
  intros E.
  apply (f_equal (fun b => match b with
                           | ByAngle a => a <? 0
                           | Until _ => false
                           end)) in E.
  vm_compute in E. discriminate E.
Qed.

(** C10. With [Midplane] set and the type [TwoAngles], [Angle2] has no
    effect on the run (the same return, the same revolves, the same
    feature but for [Angle2] itself): the profile revolved is the one
    turned by -radians([Angle])/2, not by -radians([Angle2]), and every
    revolve sweeps by radians([Angle]), the unreversed angle, with nothing
    added. *)
Theorem midplane_overrides_two_angles {K : Kernel} (H : Host) (f : Feature)
    (r : DocumentObjectExecReturn) (w : World) :
  Midplane f = true -> Type_ f = Method.TwoAngles ->
  execute H f = (r, w) ->
  (forall a2,
     execute H (set_Angle2 a2 f) =
     (r, mkWorld (set_Angle2 a2 (self w)) (calls w))) /\
  forall sk g c,
    getVerifiedFace H = inr sk -> updateAxis H f = inr g -> In c (calls w) ->
    rc_bound c = ByAngle (toRadians (Angle f)) /\
    In (rc_profile c)
       (faces (Move (Move sk (Location
                                (SetRotation (axisPnt g) (axisDir g)
                                             (toRadians (Angle f) * (-1) / 2))))
                    (localFrame H g))).
Proof.
  intros M T E. split.
  - intros a2. apply (execute_transport H (set_Angle2 a2)); auto.
    intros b d sk w0.
    unfold tryBody, orient, signedAngle, reverseAngle. simpl.
    rewrite M. reflexivity.
  - intros sk g c V U I.
    destruct (@calls_issued _ H f r w sk g c E V U I) as (Ip & Ep & Ed & B).
    destruct (@updateAxis_fields _ H f g U) as (Ty & EA & _ & _ & _ & _ & EM & _).
    rewrite <- EM in M. destruct (@midplane_sweep _ H g sk M) as (Es & Ea).
    rewrite Es, EA in Ip. rewrite Ea, EA in B.
    unfold sweptBy in B. rewrite Ty, T in B. simpl in B. auto.
Qed.

(** The case of C10 with [Angle = 90], [Angle2 = 20] and [Reversed] set. *)
Lemma midplane_overrides_two_angles_witness :
  let H := Symbolic.host Symbolic.twoFaces None true in
  let f := Symbolic.feature Method.TwoAngles 90 20 true true in
  execute H (set_Angle2 45 f) =
    (StdReturn, mkWorld (set_Angle2 45 (self (snd (execute H f))))
                        (calls (snd (execute H f)))) /\
  List.length (calls (snd (execute H f))) = 2%nat.
Proof.
  intros H f. split; [| reflexivity].
  exact (proj1 (midplane_overrides_two_angles H f (r := StdReturn)
                  (w := snd (execute H f)) eq_refl eq_refl eq_refl) 45).
Defined.

(** C8. Updating the axis again with the reference unchanged leaves the
    feature, [Base] and [Axis] with it, exactly as the first update left
    it.  Running [execute] again on the feature a successful run left,
    with the document unchanged, succeeds again and leaves the same
    feature, [Shape] with it, after the same revolves; this needs the
    placement that [positionByPrevious] sets to be the same when set
    twice, as it is when it is copied from the previous feature. *)
Theorem recomputation_is_idempotent {K : Kernel} (H : Host) (f : Feature) :
  (forall g, updateAxis H f = inr g -> updateAxis H g = inr g) /\
  ((forall p, positionByPrevious H (positionByPrevious H p) =
              positionByPrevious H p) ->
   forall w, execute H f = (StdReturn, w) ->
             execute H (self w) = (StdReturn, w)).
Proof.
  split.
  - intros g U. apply updateAxis_inr in U. destruct U as (b & d & G & ->).
    rewrite updateAxis_run. simpl. rewrite G. reflexivity.
  - intros Idem w E.
    destruct (@success_inv _ H f w E)
      as (sk & g & base & result & refined & solid & A & X & S & F & P & N
          & R1 & Es).
    destruct A as ((L & S0) & V & U & Nn).
    apply updateAxis_inr in U. destruct U as (b & d & G & ->).
    unfold execute in E. rewrite L, S0, V, updateAxis_run, G in E.
    destruct (tryBody H (set_Base_Axis b d f) sk (baseShape H) _ _ _)
      as [fl w1] eqn:R.
    destruct fl as [u0 | r0 | e0]; try discriminate E.
    2:{ injection E as E _. apply tryBody_returns in R.
        destruct R as [-> | [-> | ->]]; discriminate E. }
    injection E as ->.
    destruct (@writes_replay _ _ _ _ _ _ _ (writes_tryBody H _ _ _ _ _) R)
      as (u & new & Ew & Re).
    subst w. simpl in Es. simpl.
    set (s1 := apply u (set_Base_Axis b d f)) in *.
    assert (EA : Angle s1 = Angle f) by now rewrite Es.
    assert (ER : ReferenceAxis s1 = ReferenceAxis f) by now rewrite Es.
    unfold execute. rewrite updateAxis_run, EA, ER, L, S0, V, G.
    assert (Eb : set_Base_Axis b d s1 = s1) by now rewrite Es.
    rewrite Eb.
    assert (Et : forall w0,
               tryBody H s1 sk (baseShape H)
                       (reverseAngle s1 (toRadians (Angle f)))
                       (toRadians (Angle2 s1)) w0 =
               tryBody H (set_Base_Axis b d f) sk (baseShape H)
                       (reverseAngle f (toRadians (Angle f)))
                       (toRadians (Angle2 f)) w0).
    { intros w0. rewrite Es.
      unfold tryBody, orient, reverseAngle, axisPnt, axisDir, localFrame,
        placed. simpl. rewrite Idem. reflexivity. }
    rewrite Et, Re. unfold s1 at 1. rewrite apply_twice. reflexivity.
Qed.

(** The case of C8 of a full revolution fused with a base shape. *)
Lemma recomputation_is_idempotent_witness :
  let H := Symbolic.host Symbolic.twoFaces (Some (Symbolic.Face 50)) true in
  let f := Symbolic.feature Method.Angle 360 60 false false in
  updateAxis H (set_Base_Axis (mkVector3d 0 0 0) (mkVector3d 0 1 0) f) =
    inr (set_Base_Axis (mkVector3d 0 0 0) (mkVector3d 0 1 0) f) /\
  execute H (self (snd (execute H f))) = (StdReturn, snd (execute H f)).
Proof.
  intros H f. split.
  - exact (proj1 (recomputation_is_idempotent H f) _ eq_refl).
  - exact (proj2 (recomputation_is_idempotent H f) (fun p => eq_refl)
                 (snd (execute H f)) eq_refl).
Defined.

(** ** Remarks *)

(** In binary64 the sum of the radians of 30 and of 20 degrees is one
    unit in the last place below the radians of 50 degrees. *)
Lemma two_angles_30_20_rounding :
  (toRadians 30 + toRadians 20 <? toRadians 50) = true /\
  next_up (toRadians 30 + toRadians 20) = toRadians 50.
Proof. split; reflexivity. Qed.

(** The messages of the error kinds the claims name. *)
Example Why_UnsupportedTermination :
  Why (Caught UpToFirstLastNotSupported) =
  "ProfileBased: Revolution up to first/last is not yet supported".
Proof. reflexivity. Qed.

Example Why_AxisIntersectsProfile :
  Why AxisIntersectsSketch = "Revolve axis intersects the sketch".
Proof. reflexivity. Qed.

Example Why_self_intersecting_sketch :
  Why (Caught (Fault (Standard_Failure "TopoDS::Face"))) =
  String.append "Could not create face from sketch."
    (String.append newline
       "Intersecting sketch entities in a sketch are not allowed.").
Proof. reflexivity. Qed.

(** The type is compared by its name (line 132 and after). *)
Example method_by_name :
  forall a b, Method.eqb a b = String.eqb (Method.getValueAsString a)
                                          (Method.getValueAsString b).
Proof. exact Method_eqb_string. Qed.

(** * Further properties of [execute] *)

(** ** The trace of the revolve loop *)

Section Trace.
Context {K : Kernel}.
Variable H : Host.

Lemma revolveFaces_trace sup pnt dir bound nd fs :
  forall base mode maker s cs fl w,
    (mode = 2 \/ mode = 1)%Z ->
    revolveFaces H sup pnt dir bound nd fs base mode maker (mkWorld s cs) = (fl, w) ->
    exists new rest,
      w = mkWorld s (cs ++ new) /\ chain H base mode new /\
      fs = map rc_profile new ++ rest /\
      match fl with
      | Next (b, mk) =>
          rest = [] /\
          ((new = [] /\ b = base /\ mk = maker) \/
           exists pre c,
             new = pre ++ [c] /\ MakeRevol H c = inr (Some b) /\ mk = Some b)
      | Return _ => False
      | Throw e =>
          exists pre c,
            new = pre ++ [c] /\
            ((e = nd /\ MakeRevol H c = inr None) \/
             (exists k, e = Fault k /\ MakeRevol H c = inl k))
      end.
Proof.
  induction fs as [| face tl IH]; intros base mode maker s cs fl w Hm R.
  - simpl in R. unfold ret in R. injection R as <- <-.
    exists [], []. rewrite app_nil_r. simpl.
    repeat split; auto.
  - simpl in R. unfold bind, record, call, ret, throw in R. simpl in R.
    set (c := mkRevolCall base face sup pnt dir mode true bound) in *.
    destruct (MakeRevol H c) as [k | [shape |]] eqn:M; simpl in R.
    + injection R as <- <-. exists [c], tl. simpl. repeat split; auto.
      exists [], c. split; [reflexivity |]. right. now exists k.
    + apply IH in R.
      2:{ destruct Hm as [-> | ->]; simpl; auto. }
      destruct R as (new & rest & -> & C & -> & P).
      exists (c :: new), rest. rewrite <- app_assoc. simpl.
      split; [reflexivity |]. split; [| split; [reflexivity |]].
      * repeat split; auto. destruct new as [| c' new']; [exact I |].
        exists shape. split; [exact M |].
        replace (if (mode =? 2)%Z then 1%Z else mode) with 1%Z in C
          by (destruct Hm as [-> | ->]; reflexivity).
        exact C.
      * destruct fl as [[b mk] | r | e]; auto.
        -- destruct P as (Er & [(-> & -> & ->) | (pre & c' & -> & M' & ->)]).
           ++ split; [exact Er |]. right. now exists [], c.
           ++ split; [exact Er |]. right. now exists (c :: pre), c'.
        -- destruct P as (pre & c' & -> & P). exists (c :: pre), c'. auto.
    + injection R as <- <-. exists [c], tl. simpl. repeat split; auto.
      exists [], c. auto.
Qed.

Lemma sweep_trace method link inv pnt dir base sk angle s cs fl w :
  sweep H method link inv pnt dir base sk angle (mkWorld s cs) = (fl, w) ->
  exists new,
    w = mkWorld s (cs ++ new) /\ sweepPost H method link inv dir base sk new fl.
Proof.
  unfold sweep. intros R. unfold bind, call, ret, throw in R.
  assert (Nil : forall e : fault,
             exists new, mkWorld s cs = mkWorld s (cs ++ new) /\
                         sweepPost H method link inv dir base sk new
                                   (Throw (Fault e))).
  { intros e. exists []. rewrite app_nil_r. split; [reflexivity |].
    unfold sweepPost. simpl. repeat split; try (intros N; now destruct N).
    - now exists (faces sk).
    - now left. }
  assert (Loop : forall sup bound nd fl1 w1,
             revolveFaces H (Move sup inv) pnt dir bound nd (faces sk) base 2
                          None (mkWorld s cs) = (fl1, w1) ->
             exists new,
               w1 = mkWorld s (cs ++ new) /\
               chain H base 2 new /\
               (exists rest,
                  faces sk = map rc_profile new ++ rest /\
                  match fl1 with Next _ => rest = [] | _ => True end) /\
               Forall (fun c => rc_support c = Move sup inv) new /\
               Forall (fun c => rc_bound c = bound) new /\
               match fl1 with
               | Next (b, mk) =>
                   (new = [] /\ b = base /\ mk = None) \/
                   exists pre c,
                     new = pre ++ [c] /\ MakeRevol H c = inr (Some b) /\
                     mk = Some b
               | Return _ => False
               | Throw e =>
                   exists pre c,
                     new = pre ++ [c] /\
                     ((e = nd /\ MakeRevol H c = inr None) \/
                      (exists k, e = Fault k /\ MakeRevol H c = inl k))
               end).
  { intros sup bound nd fl1 w1 L.
    pose proof L as L'. apply revolveFaces_run in L'.
    destruct L' as (new0 & -> & F & _).
    apply revolveFaces_trace in L; [| now left].
    destruct L as (new & rest & Ew & C & Ef & P).
    assert (new0 = new) as ->.
    { injection Ew as Ew. now apply app_inv_head in Ew. }
    exists new. split; [reflexivity |]. split; [exact C |]. split.
    { exists rest. split; [exact Ef |].
      destruct fl1 as [[b mk] | r | e]; auto. apply P. }
    split.
    { eapply Forall_impl; [| exact F]. now intros c (_ & S & _). }
    split.
    { eapply Forall_impl; [| exact F]. now intros c (_ & _ & _ & _ & B). }
    destruct fl1 as [[b mk] | r | e]; auto. apply P. }
  destruct (getSupportFace H) as [k | sup] eqn:G; simpl in R.
  { injection R as <- <-. apply Nil. }
  destruct (isUpTo method) eqn:U.
  - destruct (Method.eqb method Method.UpToFace) eqn:Em; simpl in R.
    2:{ injection R as <- <-. exists []. rewrite app_nil_r.
        split; [reflexivity |]. unfold sweepPost. simpl.
        repeat split; try (intros N; now destruct N).
        - now exists (faces sk).
        - destruct method; try discriminate; auto. }
    apply Method_eqb_eq in Em.
    destruct (getFaceFromLinkSub H link) as [k | face] eqn:Gf; simpl in R.
    { injection R as <- <-. apply Nil. }
    destruct (getUpToFace H (Move face inv) base sk method dir) as [k | up] eqn:Gu;
      simpl in R.
    { injection R as <- <-. apply Nil. }
    destruct (revolveFaces H (Move sup inv) pnt dir (Until up)
                UpToFaceCouldNotRevolve (faces sk) base 2 None
                (mkWorld s cs)) as [fl1 w1] eqn:L.
    apply Loop in L. destruct L as (new & -> & C & Pf & Fs & Fb & P).
    exists new. split.
    { destruct fl1 as [[b mk] | r | e]; [ | contradiction | ];
        injection R as <- <-; reflexivity. }
    unfold sweepPost. split; [exact C |]. split.
    { destruct Pf as (rest & Ef & Pr). exists rest. split; [exact Ef |].
      destruct fl1 as [[b mk] | r | e]; [ | contradiction | ];
        injection R as <- _; auto. }
    split; [intros _; now exists sup |].
    split; [intros _ _; now exists face, up |].
    destruct fl1 as [[b mk] | r | e]; [ | contradiction | ];
      injection R as <- _.
    + destruct P as [(-> & _) | (pre & c & -> & M & _)]; [now left | right].
      now exists pre, c.
    + destruct P as (pre & c & -> & [(-> & M) | (k & -> & M)]).
      * split; [exact Em | now exists pre, c].
      * right. now exists pre, c.
  - destruct (revolveFaces H (Move sup inv) pnt dir (ByAngle angle)
                CouldNotRevolve (faces sk) base 2 None
                (mkWorld s cs)) as [fl1 w1] eqn:L.
    apply Loop in L. destruct L as (new & -> & C & Pf & Fs & Fb & P).
    exists new. split.
    { destruct fl1 as [[b mk] | r | e]; [ | contradiction | ];
        injection R as <- <-; reflexivity. }
    unfold sweepPost. split; [exact C |]. split.
    { destruct Pf as (rest & Ef & Pr). exists rest. split; [exact Ef |].
      destruct fl1 as [[b mk] | r | e]; [ | contradiction | ];
        injection R as <- _; auto. }
    split; [intros _; now exists sup |].
    split; [intros _ D; congruence |].
    destruct fl1 as [[b mk] | r | e]; [ | contradiction | ];
      injection R as <- _.
    + destruct P as [(-> & _) | (pre & c & -> & M & ->)]; [now left | right].
      now exists pre, c.
    + destruct P as (pre & c & -> & [(-> & M) | (k & -> & M)]).
      * split; [exact U | now exists pre, c].
      * right. now exists pre, c.
Qed.

(** A run that got past the axis check went through the sweep. *)
Lemma Run_swept f r w sk g :
  Run H f r w ->
  reachesAxisCheck H f sk g -> axisCrosses H g sk = false ->
  exists fl,
    sweepOf H g sk (mkWorld (placed H g) []) =
      (fl, mkWorld (placed H g) (calls w)) /\
    match fl with
    | Next (b, res) =>
        exists fl', commit H b res (mkWorld (placed H g) (calls w)) = (fl', w) /\
                    r = returned fl'
    | Return _ => False
    | Throw e => r = Error (Caught e) /\ w = mkWorld (placed H g) (calls w)
    end.
Proof.
  intros R ((L & S) & V & U & N) X.
  destruct R as [L0 | L0 S0 | e I0 V0 | sk0 e I0 V0 U0 | sk0 g0 I0 V0 U0 N0
                | sk0 g0 A0 X0 | sk0 g0 e new A0 X0 S1 F
                | sk0 g0 base result new fl w A0 X0 S1 F P C];
    try congruence.
  - destruct A0 as (_ & V0 & U0 & _).
    assert (sk0 = sk) by congruence. assert (g0 = g) by congruence.
    subst. congruence.
  - destruct A0 as (_ & V0 & U0 & _).
    assert (sk0 = sk) by congruence. assert (g0 = g) by congruence.
    subst. exists (Throw e). simpl. auto.
  - destruct A0 as (_ & V0 & U0 & _).
    assert (sk0 = sk) by congruence. assert (g0 = g) by congruence.
    subst. pose proof C as C'. apply commit_run in C'.
    destruct C' as (Ec & _). simpl in Ec. rewrite Ec.
    exists (Next (base, result)). split; [exact S1 |]. now exists fl.
Qed.

Lemma Run_reached f r w :
  Run H f r w ->
  r = StdReturn \/ (exists e, r = Error (Caught e)) \/ calls w <> [] ->
  exists sk g, reachesAxisCheck H f sk g /\ axisCrosses H g sk = false.
Proof.
  intros R C.
  destruct R as [ | | | | | | sk g e new A X S F
                | sk g base result new fl w A X S F P Cm];
    try (now exists sk, g);
    exfalso; simpl in C;
    destruct C as [C | [(e0 & C) | C]]; try discriminate C; now apply C.
Qed.

Lemma execute_swept f r w sk g :
  execute H f = (r, w) ->
  reachesAxisCheck H f sk g -> axisCrosses H g sk = false ->
  exists fl,
    sweepOf H g sk (mkWorld (placed H g) []) =
      (fl, mkWorld (placed H g) (calls w)) /\
    sweepPost H (Type_ g) (UpToFace g) (localFrame H g) (localDir H g)
              (Move (baseShape H) (localFrame H g)) (sweptProfile H g sk)
              (calls w) fl /\
    match fl with
    | Next (b, res) =>
        exists fl', commit H b res (mkWorld (placed H g) (calls w)) = (fl', w) /\
                    r = returned fl'
    | Return _ => False
    | Throw e => r = Error (Caught e) /\ w = mkWorld (placed H g) (calls w)
    end.
Proof.
  intros E A X. apply execute_Run in E.
  destruct (Run_swept E A X) as (fl & S & P).
  exists fl. split; [exact S |]. split; [| exact P].
  unfold sweepOf in S. apply sweep_trace in S.
  destruct S as (new & Ew & Q). injection Ew as <-. exact Q.
Qed.

(** When a run issued a revolve, or succeeded, or threw, the profile and
    the axis it worked on are those of the document. *)
Lemma execute_reached f r w sk g :
  execute H f = (r, w) ->
  getVerifiedFace H = inr sk -> updateAxis H f = inr g ->
  r = StdReturn \/ (exists e, r = Error (Caught e)) \/ calls w <> [] ->
  reachesAxisCheck H f sk g /\ axisCrosses H g sk = false.
Proof.
  intros E V U C. apply execute_Run in E.
  destruct (Run_reached E C) as (sk0 & g0 & A & X).
  pose proof A as (_ & V0 & U0 & _).
  assert (sk0 = sk) by congruence. assert (g0 = g) by congruence.
  subst. auto.
Qed.

End Trace.

Section TraceFacts.
Context {K : Kernel}.
Variable H : Host.

Lemma chain_modes base mode cs :
  chain H base mode cs ->
  match cs with
  | [] => True
  | c :: rest =>
      rc_base c = base /\ rc_mode c = mode /\
      Forall (fun c' => rc_mode c' = 1%Z) rest
  end.
Proof.
  revert base mode. induction cs as [| c rest IH]; intros base mode C;
    [exact I |].
  destruct C as (Eb & Em & _ & C). repeat split; auto.
  destruct rest as [| c' rest']; [constructor |].
  destruct C as (shape & _ & C). apply IH in C.
  destruct C as (_ & Em' & F). now constructor.
Qed.

Lemma chain_modify base mode cs :
  chain H base mode cs -> Forall (fun c => rc_modify c = true) cs.
Proof.
  revert base mode. induction cs as [| c rest IH]; intros base mode C;
    [constructor |].
  destruct C as (_ & _ & Em & C). constructor; [exact Em |].
  destruct rest as [| c' rest']; [constructor |].
  destruct C as (shape & _ & C). now apply IH in C.
Qed.

(** In a chain only the last revolve can have been left undone. *)
Lemma chain_not_done base mode cs c :
  chain H base mode cs -> In c cs -> MakeRevol H c = inr None ->
  exists pre, cs = pre ++ [c].
Proof.
  revert base mode. induction cs as [| c0 rest IH]; intros base mode C I N;
    [contradiction |].
  destruct C as (_ & _ & _ & C). destruct rest as [| c' rest'].
  - destruct I as [-> | []]. now exists [].
  - destruct C as (shape & M & C). destruct I as [-> | I].
    + congruence.
    + destruct (IH _ _ C I N) as (pre & ->). now exists (c0 :: pre).
Qed.

End TraceFacts.

(** X1. The revolves of a run form a chain: the first is given the base
    shape moved into the local frame, with the mode 2; every later one is
    given the shape the revolve before it built, with the mode 1; all of
    them modify, and all are given the support face moved into the local
    frame. *)
Theorem revolve_chain {K : Kernel} (H : Host) (f : Feature)
    (r : DocumentObjectExecReturn) (w : World) (sk : TopoDS_Shape) (g : Feature) :
  execute H f = (r, w) ->
  getVerifiedFace H = inr sk -> updateAxis H f = inr g ->
  chain H (Move (baseShape H) (localFrame H g)) 2 (calls w) /\
  match calls w with
  | [] => True
  | c :: rest =>
      rc_base c = Move (baseShape H) (localFrame H g) /\ rc_mode c = 2%Z /\
      Forall (fun c' => rc_mode c' = 1%Z) rest /\
      Forall (fun c' => rc_modify c' = true) (calls w) /\
      exists sup,
        getSupportFace H = inr sup /\
        Forall (fun c' => rc_support c' = Move sup (localFrame H g)) (calls w)
  end.
Proof.
  intros E V U. destruct (calls w) as [| c cs] eqn:Ec; [split; exact I |].
  assert (N : calls w <> []) by (rewrite Ec; discriminate).
  destruct (@execute_reached _ H f r w sk g E V U (or_intror (or_intror N))) as (A & X).
  destruct (@execute_swept _ H f r w sk g E A X) as (fl & _ & (C & _ & Sup & _) & _).
  rewrite Ec in *. split; [exact C |].
  destruct (@chain_modes _ H _ _ _ C) as (Eb & Em & F).
  split; [exact Eb |]. split; [exact Em |]. split; [exact F |].
  split; [now apply chain_modify in C | apply Sup; discriminate].
Qed.

(** The chain of X1 on a profile of two faces fused with a base shape. *)
Lemma revolve_chain_witness :
  let H := Symbolic.host Symbolic.twoFaces (Some (Symbolic.Face 50)) true in
  let f := Symbolic.feature Method.Angle 360 60 false false in
  let g := set_Base_Axis (mkVector3d 0 0 0) (mkVector3d 0 1 0) f in
  map rc_mode (calls (snd (execute H f))) = [2%Z; 1%Z] /\
  chain H (Move (baseShape H) (localFrame H g)) 2 (calls (snd (execute H f))).
Proof.
  intros H f g. split; [reflexivity |].
  exact (proj1 (revolve_chain H f (sk := Symbolic.twoFaces) (g := g)
                              (surjective_pairing _) eq_refl eq_refl)).
Defined.

(** X2. A run revolves the faces of the profile in the order the explorer
    visits them, one revolve for each face, up to the face where it
    stops.  A run that gets through the loop has revolved every face
    once, however it ends after it: so has a successful run, a run that
    finds no result and a run whose fuse is not done. *)
Theorem revolves_follow_faces {K : Kernel} (H : Host) (f : Feature)
    (r : DocumentObjectExecReturn) (w : World) (sk : TopoDS_Shape) (g : Feature) :
  execute H f = (r, w) ->
  getVerifiedFace H = inr sk -> updateAxis H f = inr g ->
  exists rest,
    faces (sweptProfile H g sk) = map rc_profile (calls w) ++ rest /\
    (forall br w1,
       reachesAxisCheck H f sk g -> axisCrosses H g sk = false ->
       sweepOf H g sk (mkWorld (placed H g) []) = (Next br, w1) ->
       rest = []) /\
    (r = StdReturn \/ r = Error NoResult \/ r = Error (Caught FusionFailed) ->
     rest = []).
Proof.
  intros E V U.
  assert (Reached : reachesAxisCheck H f sk g /\ axisCrosses H g sk = false ->
                    exists rest,
                      faces (sweptProfile H g sk) = map rc_profile (calls w) ++ rest /\
                      (forall br w1,
                         reachesAxisCheck H f sk g -> axisCrosses H g sk = false ->
                         sweepOf H g sk (mkWorld (placed H g) []) = (Next br, w1) ->
                         rest = []) /\
                      (r = StdReturn \/ r = Error NoResult \/
                       r = Error (Caught FusionFailed) -> rest = [])).
  { intros (A & X).
    destruct (@execute_swept _ H f r w sk g E A X)
      as (fl & S & (_ & (rest & Ef & Er) & _ & _ & Last) & P).
    exists rest. split; [exact Ef |]. split.
    - intros br w1 _ _ S1. rewrite S in S1. injection S1 as -> _. exact Er.
    - intros Q.
      destruct fl as [[b res] | r0 | e]; [exact Er | contradiction |].
      destruct P as (-> & _).
      destruct Q as [Q | [Q | Q]]; try discriminate Q.
      injection Q as ->. contradiction. }
  pose proof (@execute_Run _ H f r w E) as R.
  destruct R as [L0 | L0 S0 | e0 I0 V0 | sk0 e0 I0 V0 U0 | sk0 g0 I0 V0 U0 N0
                | sk0 g0 A0 X0 | sk0 g0 e0 new A0 X0 S1 F
                | sk0 g0 base result new fl w A0 X0 S1 F P C];
    try (exists (faces (sweptProfile H g sk)); split; [reflexivity |];
         split;
         [ intros br w1 ((L1 & S2) & V1 & U1 & N1) X1 _; congruence
         | intros [Q | [Q | Q]]; discriminate Q ]).
  - destruct A0 as (_ & V0 & U0 & _).
    assert (sk0 = sk) by congruence. assert (g0 = g) by congruence. subst.
    exists (faces (sweptProfile H g sk)). split; [reflexivity |]. split.
    + intros br w1 _ X1 _. congruence.
    + intros [Q | [Q | Q]]; discriminate Q.
  - pose proof A0 as (_ & V0 & U0 & _).
    assert (sk0 = sk) by congruence. assert (g0 = g) by congruence. subst.
    apply Reached. auto.
  - pose proof A0 as (_ & V0 & U0 & _).
    assert (sk0 = sk) by congruence. assert (g0 = g) by congruence. subst.
    apply Reached. auto.
Qed.

(** The case of X2 of a run over two faces whose fuse is not done. *)
Lemma revolves_follow_faces_witness :
  let H := Symbolic.host Symbolic.twoFaces (Some (Symbolic.Face 50)) false in
  let f := Symbolic.feature Method.Angle 360 60 false false in
  let g := set_Base_Axis (mkVector3d 0 0 0) (mkVector3d 0 1 0) f in
  fst (execute H f) = Error (Caught FusionFailed) /\
  faces (sweptProfile H g Symbolic.twoFaces) =
    map rc_profile (calls (snd (execute H f))).
Proof.
  intros H f g. split; [reflexivity |].
  destruct (@revolves_follow_faces Symbolic.kernel H f _ _ Symbolic.twoFaces g
              (surjective_pairing _) eq_refl eq_refl) as (rest & Ef & _ & Er).
  rewrite (Er (or_intror (or_intror eq_refl))), app_nil_r in Ef. exact Ef.
Defined.

(** X3. A revolve that the kernel does not get done ends the run: it is
    the last revolve issued, and the run fails with "Could not revolve
    the sketch!" of the angle types or of up to face, by the type.
    Conversely a run fails so only when its last revolve was not done. *)
Theorem revolve_not_done_is_fatal {K : Kernel} (H : Host) (f : Feature)
    (r : DocumentObjectExecReturn) (w : World) :
  execute H f = (r, w) ->
  ((exists c, In c (calls w) /\ MakeRevol H c = inr None) <->
   r = Error (Caught CouldNotRevolve) \/
   r = Error (Caught UpToFaceCouldNotRevolve)) /\
  (forall c, In c (calls w) -> MakeRevol H c = inr None ->
             exists pre, calls w = pre ++ [c]) /\
  (r = Error (Caught CouldNotRevolve) -> isUpTo (Type_ f) = false) /\
  (r = Error (Caught UpToFaceCouldNotRevolve) -> Type_ f = Method.UpToFace).
Proof.
  intros E.
  assert (Some_run : r = StdReturn \/ (exists e, r = Error (Caught e)) \/
                     calls w <> [] ->
            exists sk g fl,
              updateAxis H f = inr g /\
              sweepPost H (Type_ g) (UpToFace g) (localFrame H g) (localDir H g)
                        (Move (baseShape H) (localFrame H g))
                        (sweptProfile H g sk) (calls w) fl /\
              match fl with
              | Next (b, res) =>
                  exists fl',
                    commit H b res (mkWorld (placed H g) (calls w)) = (fl', w) /\
                    r = returned fl'
              | Return _ => False
              | Throw e => r = Error (Caught e)
              end).
  { intros C. destruct (@Run_reached _ H f r w (@execute_Run _ H f r w E) C) as (sk & g & A & X).
    destruct (@execute_swept _ H f r w sk g E A X) as (fl & _ & Q & P).
    exists sk, g, fl. split; [apply A |]. split; [exact Q |].
    destruct fl as [[b res] | r0 | e]; auto. apply P. }
  assert (Last : forall c, In c (calls w) -> MakeRevol H c = inr None ->
            (exists pre, calls w = pre ++ [c]) /\
            (r = Error (Caught CouldNotRevolve) \/
             r = Error (Caught UpToFaceCouldNotRevolve))).
  { intros c I N.
    assert (Ne : calls w <> []) by (intros Ec; rewrite Ec in I; contradiction).
    destruct (Some_run (or_intror (or_intror Ne)))
      as (sk & g & fl & U & (C & _ & _ & _ & Q) & P).
    destruct (@chain_not_done _ H _ _ _ c C I N) as (pre & Ec).
    split; [now exists pre |].
    assert (Same : forall pre' c', calls w = pre' ++ [c'] -> c' = c).
    { intros pre' c' Ec'. rewrite Ec in Ec'.
      now apply app_inj_tail in Ec' as (_ & ->). }
    destruct fl as [[b res] | r0 | e]; [| contradiction |].
    - destruct Q as [Q | (pre' & c' & Ec' & M & _)]; [now destruct Ne |].
      rewrite (Same _ _ Ec') in M. congruence.
    - subst r. destruct e as [k | | | |].
      + destruct Q as [Q | (pre' & c' & Ec' & M)]; [now destruct Ne |].
        rewrite (Same _ _ Ec') in M. congruence.
      + destruct Q as (_ & Q). now destruct Ne.
      + now right.
      + now left.
      + contradiction. }
  assert (Back : r = Error (Caught CouldNotRevolve) \/
                 r = Error (Caught UpToFaceCouldNotRevolve) ->
            exists sk g,
              updateAxis H f = inr g /\
              sweepPost H (Type_ g) (UpToFace g) (localFrame H g) (localDir H g)
                        (Move (baseShape H) (localFrame H g))
                        (sweptProfile H g sk) (calls w)
                        (match r with
                         | Error (Caught e) => Throw e
                         | _ => Throw FusionFailed
                         end)).
  { intros R.
    assert (C : r = StdReturn \/ (exists e, r = Error (Caught e)) \/
                calls w <> []).
    { right. left. destruct R as [-> | ->]; eexists; reflexivity. }
    destruct (Some_run C) as (sk & g & fl & U & Q & P).
    exists sk, g. split; [exact U |].
    destruct fl as [[b res] | r0 | e]; [| contradiction |].
    - destruct P as (fl' & Cm & Er). apply commit_run in Cm.
      destruct Cm as (_ & Cm). exfalso.
      destruct fl' as [u | r1 | e1]; simpl in Er.
      + destruct R as [-> | ->]; discriminate Er.
      + destruct Cm as (-> & _). destruct R as [R | R]; rewrite R in Er;
          discriminate Er.
      + destruct Cm as [(k & -> & _) | ([-> | (k & ->)] & _)];
          destruct R as [R | R]; rewrite R in Er; discriminate Er.
    - rewrite P. exact Q. }
  split; [split |]; [| | split; [| split]].
  - intros (c & I & N). now apply (Last c).
  - intros R. destruct (Back R) as (sk & g & U & (_ & _ & _ & _ & Q)).
    destruct R as [-> | ->]; destruct Q as (_ & pre & c & Ec & M);
      exists c; (split; [rewrite Ec; apply in_or_app; right; now left | exact M]).
  - intros c I N. now apply (Last c).
  - intros R. destruct (Back (or_introl R)) as (sk & g & U & (_ & _ & _ & _ & Q)).
    rewrite R in Q. destruct Q as (Q & _).
    destruct (@updateAxis_fields _ H f g U) as (Ty & _). now rewrite <- Ty.
  - intros R. destruct (Back (or_intror R)) as (sk & g & U & (_ & _ & _ & _ & Q)).
    rewrite R in Q. destruct Q as (Q & _).
    destruct (@updateAxis_fields _ H f g U) as (Ty & _). now rewrite <- Ty.
Qed.

(** The case of X3 where the revolve of the second face is not done. *)
Lemma revolve_not_done_is_fatal_witness :
  let f := Symbolic.feature Method.Angle 360 60 false false in
  fst (execute Cases.stubborn f) = Error (Caught CouldNotRevolve) /\
  ((exists c, In c (calls (snd (execute Cases.stubborn f))) /\
              MakeRevol Cases.stubborn c = inr None) <->
   fst (execute Cases.stubborn f) = Error (Caught CouldNotRevolve) \/
   fst (execute Cases.stubborn f) = Error (Caught UpToFaceCouldNotRevolve)).
Proof.
  intros f. split; [reflexivity |].
  exact (proj1 (revolve_not_done_is_fatal Cases.stubborn f
                                          (surjective_pairing _))).
Defined.

(** ** The end of a successful run *)

Section Commit.
Context {K : Kernel}.
Variable H : Host.

(** How [commit] falls through: the result is not null and is refined
    into [AddSubShape]; [Shape] is the solid of it when [base] is null, and
    of the refined fuse of [base] with it otherwise; and the same comes
    out from every other world. *)
Lemma commit_success base result s cs u w :
  commit H base result (mkWorld s cs) = (Next u, w) ->
  exists refined solid,
    IsNull result = false /\
    refineShapeIfActive H result = inr refined /\
    w = mkWorld (set_Shape solid (set_AddSubShape refined s)) cs /\
    ((IsNull base = true /\ getSolid H refined = inr solid) \/
     (IsNull base = false /\
      exists fused refined2,
        Fuse H base refined = inr (Some fused) /\
        refineShapeIfActive H fused = inr refined2 /\
        getSolid H refined2 = inr solid)) /\
    forall s' cs',
      commit H base result (mkWorld s' cs') =
      (Next u, mkWorld (set_Shape solid (set_AddSubShape refined s')) cs').
Proof.
  unfold commit, bind, call, ret, throw, modify, doReturn. intros R.
  destruct (IsNull result) eqn:N; simpl in *; [discriminate R |].
  destruct (refineShapeIfActive H result) as [k | refined] eqn:R1; simpl in *;
    [discriminate R |].
  destruct (IsNull base) eqn:Nb; simpl in *.
  - destruct (getSolid H refined) as [k | solid] eqn:G; simpl in *;
      [discriminate R |].
    injection R as <- <-. exists refined, solid.
    split; [reflexivity |]. split; [reflexivity |]. split; [reflexivity |].
    split; [left; auto | intros s' cs'; rewrite ?G; reflexivity].
  - destruct (Fuse H base refined) as [k | [fused |]] eqn:F; simpl in *;
      try discriminate R.
    destruct (refineShapeIfActive H fused) as [k | refined2] eqn:R2; simpl in *;
      [discriminate R |].
    destruct (getSolid H refined2) as [k | solid] eqn:G; simpl in *;
      [discriminate R |].
    injection R as <- <-. exists refined, solid.
    split; [reflexivity |]. split; [reflexivity |]. split; [reflexivity |].
    split; [| intros s' cs'; rewrite ?R2, ?G; reflexivity].
    right. split; [reflexivity |]. now exists fused, refined2.
Qed.

(** The sweep of an angle type over a profile without faces. *)
Lemma sweepOf_no_face g sk sup w0 :
  faces (sweptProfile H g sk) = [] -> isUpTo (Type_ g) = false ->
  getSupportFace H = inr sup ->
  sweepOf H g sk w0 =
  (Next (Move (baseShape H) (localFrame H g), NullShape), w0).
Proof.
  intros F U G. unfold sweepOf, sweep, bind, call, ret. rewrite G, U, F.
  reflexivity.
Qed.

(** The sweep up to a face whose link does not resolve. *)
Lemma sweepOf_no_link g sk sup k w0 :
  Type_ g = Method.UpToFace -> getSupportFace H = inr sup ->
  getFaceFromLinkSub H (UpToFace g) = inl k ->
  sweepOf H g sk w0 = (Throw (Fault k), w0).
Proof.
  intros T G L. unfold sweepOf, sweep, bind, call, ret, throw.
  rewrite G, T, L. reflexivity.
Qed.

End Commit.

(** X4. Up to a face: every revolve of the run is bounded by one and the
    same face, the one [getUpToFace] gives for the face of the [UpToFace]
    link moved into the local frame; and when that link does not resolve
    the run fails with the fault of the link, with no revolve issued. *)
Theorem up_to_face_bound {K : Kernel} (H : Host) (f : Feature)
    (r : DocumentObjectExecReturn) (w : World) (sk : TopoDS_Shape) (g : Feature) :
  execute H f = (r, w) ->
  Type_ f = Method.UpToFace ->
  getVerifiedFace H = inr sk -> updateAxis H f = inr g ->
  (calls w <> [] ->
   exists face up,
     getFaceFromLinkSub H (UpToFace f) = inr face /\
     getUpToFace H (Move face (localFrame H g))
                 (Move (baseShape H) (localFrame H g)) (sweptProfile H g sk)
                 Method.UpToFace (localDir H g) = inr up /\
     Forall (fun c => rc_bound c = Until up) (calls w)) /\
  (forall k sup,
     reachesAxisCheck H f sk g -> axisCrosses H g sk = false ->
     getSupportFace H = inr sup ->
     getFaceFromLinkSub H (UpToFace f) = inl k ->
     r = Error (Caught (Fault k)) /\ calls w = []).
Proof.
  intros E T V U.
  destruct (@updateAxis_fields _ H f g U) as (Ty & _ & _ & _ & El & _).
  split.
  - intros N.
    destruct (@execute_reached _ H f r w sk g E V U (or_intror (or_intror N)))
      as (A & X).
    destruct (@execute_swept _ H f r w sk g E A X)
      as (fl & _ & (_ & _ & _ & Q & _) & _).
    rewrite Ty, T, El in Q. destruct (Q N eq_refl) as (face & up & _ & Q').
    now exists face, up.
  - intros k sup A X G L.
    destruct (@execute_swept _ H f r w sk g E A X) as (fl & S & _ & P).
    rewrite (@sweepOf_no_link _ H g sk sup k) in S;
      [| now rewrite Ty | exact G | now rewrite El].
    injection S as <- S. rewrite <- S. split; [apply P | reflexivity].
Qed.

(** The case of X4 of a profile of two faces revolved up to a face. *)
Lemma up_to_face_bound_witness :
  let H := Symbolic.host Symbolic.twoFaces None true in
  let f := Cases.upToFace in
  let g := set_Base_Axis (mkVector3d 0 0 0) (mkVector3d 0 1 0) f in
  Forall (fun c => rc_bound c =
                   Until (K := Symbolic.kernel)
                         (Symbolic.Moved (Symbolic.Face 200)
                            (Symbolic.Inverse (Symbolic.OfPlacement 7))))
         (calls (snd (execute H f))) /\
  List.length (calls (snd (execute H f))) = 2%nat.
Proof.
  intros H f g. split; [| reflexivity].
  destruct (proj1 (up_to_face_bound H f (sk := Symbolic.twoFaces) (g := g)
                                    (surjective_pairing _) eq_refl eq_refl
                                    eq_refl))
    as (face & up & L & Gu & F).
  - discriminate.
  - injection L as <-. injection Gu as <-. exact F.
Defined.

(** X5. After a successful run that issued a revolve, [Shape] is the
    solid of the refined fuse of the shape the last revolve built with
    its own refinement, which is [AddSubShape]: the loop has overwritten
    [base] (lines 190, 208), so that the fuse of line 224 is always
    attempted, with or without a base feature, and takes the shape of the
    loop as its first operand. *)
Theorem Shape_is_solid_of_fuse {K : Kernel} (H : Host) (f : Feature) (w : World) :
  execute H f = (StdReturn, w) ->
  calls w <> [] ->
  exists pre c swept fused refined2,
    calls w = pre ++ [c] /\
    MakeRevol H c = inr (Some swept) /\
    refineShapeIfActive H swept = inr (AddSubShape (self w)) /\
    Fuse H swept (AddSubShape (self w)) = inr (Some fused) /\
    refineShapeIfActive H fused = inr refined2 /\
    getSolid H refined2 = inr (Shape (self w)).
Proof.
  intros E N.
  destruct (@Run_reached _ H f StdReturn w (@execute_Run _ H f _ w E)
                         (or_introl eq_refl)) as (sk & g & A & X).
  destruct (@execute_swept _ H f StdReturn w sk g E A X)
    as (fl & _ & (_ & _ & _ & _ & Q) & P).
  destruct fl as [[b res] | r0 | e]; [| contradiction | destruct P as (P & _);
                                                        discriminate P].
  destruct Q as [Q | (pre & c & Ec & M & ->)]; [now destruct N |].
  destruct P as (fl' & Cm & Er).
  destruct fl' as [u | r1 | e1]; simpl in Er.
  - apply commit_success in Cm.
    destruct Cm as (refined & solid & Nr & R1 & -> & Sh & _). simpl.
    destruct Sh as [(Nb & _) | (_ & fused & refined2 & F & R2 & G)];
      [congruence |].
    now exists pre, c, res, fused, refined2.
  - apply commit_run in Cm. destruct Cm as (_ & -> & _). discriminate Er.
  - discriminate Er.
Qed.

(** The case of X5 of a run without a base feature. *)
Lemma Shape_is_solid_of_fuse_witness :
  let H := Symbolic.host Symbolic.twoFaces None true in
  let f := Symbolic.feature Method.Angle 360 60 false false in
  let w := snd (execute H f) in
  getBaseShape H = inl "No base" /\
  exists pre c swept fused refined2,
    calls w = pre ++ [c] /\
    MakeRevol H c = inr (Some swept) /\
    refineShapeIfActive H swept = inr (AddSubShape (self w)) /\
    Fuse H swept (AddSubShape (self w)) = inr (Some fused) /\
    refineShapeIfActive H fused = inr refined2 /\
    getSolid H refined2 = inr (Shape (self w)).
Proof.
  intros H f w. split; [reflexivity |].
  refine (Shape_is_solid_of_fuse H f (w := snd (execute H f)) eq_refl _).
  discriminate.
Defined.

(** X6. An angle type on a profile without faces: once the support face
    is there the run fails with "Could not revolve the sketch!" of
    line 235, no revolve is issued, and the feature is left with the axis
    and the placement set and its shapes untouched. *)
Theorem no_face_no_result {K : Kernel} (H : Host) (f : Feature)
    (r : DocumentObjectExecReturn) (w : World) (sk sup : TopoDS_Shape)
    (g : Feature) :
  execute H f = (r, w) ->
  reachesAxisCheck H f sk g ->
  faces (sweptProfile H g sk) = [] ->
  isUpTo (Type_ f) = false ->
  getSupportFace H = inr sup ->
  r = Error NoResult /\ w = mkWorld (placed H g) [].
Proof.
  intros E A F U G.
  assert (X : axisCrosses H g sk = false).
  { unfold axisCrosses. now rewrite F. }
  pose proof A as (_ & _ & Ua & _).
  destruct (@updateAxis_fields _ H f g Ua) as (Ty & _).
  destruct (@execute_swept _ H f r w sk g E A X) as (fl & S & _ & P).
  rewrite (@sweepOf_no_face _ H g sk sup) in S;
    [| exact F | now rewrite Ty | exact G].
  injection S as <- S. rewrite <- S in P. destruct P as (fl' & Cm & ->).
  unfold commit in Cm. rewrite IsNull_NullShape in Cm. simpl in Cm.
  unfold doReturn in Cm. injection Cm as <- <-. auto.
Qed.

(** The case of X6 of a profile that is an empty compound. *)
Lemma no_face_no_result_witness :
  let H := Symbolic.host Symbolic.Empty None true in
  let f := Symbolic.feature Method.Angle 360 60 false false in
  let g := set_Base_Axis (mkVector3d 0 0 0) (mkVector3d 0 1 0) f in
  fst (execute H f) = Error NoResult /\
  snd (execute H f) = mkWorld (placed H g) [].
Proof.
  intros H f g.
  refine (@no_face_no_result Symbolic.kernel H f _ _ Symbolic.Empty
                             (Symbolic.Face 100) g
                             (surjective_pairing _) _ eq_refl eq_refl eq_refl).
  repeat split.
Defined.

(** ** What a run reads and writes *)

Section Footprints.
Context {K : Kernel}.
Variable H : Host.

Lemma sweepOf_no_support g sk k w0 :
  getSupportFace H = inl k -> sweepOf H g sk w0 = (Throw (Fault k), w0).
Proof.
  intros G. unfold sweepOf, sweep, bind, call, throw. now rewrite G.
Qed.

(** The feature a run leaves: the one it was given, or the one with the
    axis updated and then some of the placement and the two shapes set. *)
Lemma Run_self f r w :
  Run H f r w ->
  self w = f \/
  exists g u, updateAxis H f = inr g /\ self w = apply u g.
Proof.
  intros R.
  destruct R as [L | L S | e I V | sk e I V U | sk g I V U N
                | sk g A X | sk g e new A X S F
                | sk g base result new fl w A X S F P C]; simpl; auto.
  - right. exists g, untouched. auto.
  - right. exists g, (mkUpdate (Some (positionByPrevious H (Placement g))) None None).
    split; [apply A | reflexivity].
  - right. exists g, (mkUpdate (Some (positionByPrevious H (Placement g))) None None).
    split; [apply A | reflexivity].
  - right. apply commit_run in C. destruct C as (_ & C).
    destruct fl as [u | r0 | e].
    + destruct C as (refined & solid & _ & _ & ->).
      exists g, (mkUpdate (Some (positionByPrevious H (Placement g)))
                          (Some refined) (Some solid)).
      split; [apply A | reflexivity].
    + destruct C as (_ & _ & ->).
      exists g, (mkUpdate (Some (positionByPrevious H (Placement g))) None None).
      split; [apply A | reflexivity].
    + destruct C as [(k & _ & ->) | (_ & refined & _ & ->)].
      * exists g, (mkUpdate (Some (positionByPrevious H (Placement g))) None None).
        split; [apply A | reflexivity].
      * exists g, (mkUpdate (Some (positionByPrevious H (Placement g)))
                            (Some refined) None).
        split; [apply A | reflexivity].
Qed.

Lemma apply_keeps u s :
  Type_ (apply u s) = Type_ s /\ Base (apply u s) = Base s /\
  Axis (apply u s) = Axis s /\ Angle (apply u s) = Angle s /\
  Angle2 (apply u s) = Angle2 s /\
  ReferenceAxis (apply u s) = ReferenceAxis s /\
  UpToFace (apply u s) = UpToFace s /\ Reversed (apply u s) = Reversed s /\
  Midplane (apply u s) = Midplane s.
Proof. destruct u as [[p |] [a |] [sh |]]; repeat split. Qed.

End Footprints.

(** X7. The checks ahead of the sweep decide in their order, each one
    whatever the later ones would say: a profile that cannot be obtained
    is reported even if the axis would not resolve; an axis that does not
    resolve is reported even if the profile is null; a null profile is
    reported once the axis is set; and a support face that cannot be
    obtained is reported once the axis check has passed, before the type
    of the revolution is looked at.  No revolve is issued in any of these
    cases. *)
Theorem validation_order {K : Kernel} (H : Host) (f : Feature)
    (r : DocumentObjectExecReturn) (w : World) :
  execute H f = (r, w) ->
  inRange f ->
  (forall e, getVerifiedFace H = inl e ->
     r = Error (ProfileInvalid e) /\ w = mkWorld f []) /\
  (forall sk e, getVerifiedFace H = inr sk -> updateAxis H f = inl e ->
     r = Error (InvalidAxis e) /\ w = mkWorld f []) /\
  (forall sk g, getVerifiedFace H = inr sk -> updateAxis H f = inr g ->
     IsNull sk = true ->
     r = Error FaceFromSketchFailed /\ w = mkWorld g []) /\
  (forall sk g k, getVerifiedFace H = inr sk -> updateAxis H f = inr g ->
     IsNull sk = false -> axisCrosses H g sk = false ->
     getSupportFace H = inl k ->
     r = Error (Caught (Fault k)) /\ w = mkWorld (placed H g) []).
Proof.
  intros E (L & S). pose proof (@execute_Run _ H f r w E) as R.
  split; [| split; [| split]].
  - intros e V.
    destruct R as [L0 | L0 S0 | e0 I0 V0 | sk0 e0 I0 V0 U0 | sk0 g0 I0 V0 U0 N0
                  | sk0 g0 A0 X0 | sk0 g0 e0 new A0 X0 S1 F
                  | sk0 g0 base result new fl w A0 X0 S1 F P C];
      try congruence;
      try (destruct A0 as (_ & V0 & _); congruence).
    split; [congruence | reflexivity].
  - intros sk e V U.
    destruct R as [L0 | L0 S0 | e0 I0 V0 | sk0 e0 I0 V0 U0 | sk0 g0 I0 V0 U0 N0
                  | sk0 g0 A0 X0 | sk0 g0 e0 new A0 X0 S1 F
                  | sk0 g0 base result new fl w A0 X0 S1 F P C];
      try congruence;
      try (destruct A0 as (_ & _ & U0 & _); congruence).
    split; [congruence | reflexivity].
  - intros sk g V U N.
    destruct R as [L0 | L0 S0 | e0 I0 V0 | sk0 e0 I0 V0 U0 | sk0 g0 I0 V0 U0 N0
                  | sk0 g0 A0 X0 | sk0 g0 e0 new A0 X0 S1 F
                  | sk0 g0 base result new fl w A0 X0 S1 F P C];
      try congruence;
      try (destruct A0 as (_ & V0 & _ & N0); congruence).
    split; [reflexivity | congruence].
  - intros sk g k V U N X G.
    assert (A : reachesAxisCheck H f sk g) by (repeat split; assumption).
    destruct (@execute_swept _ H f r w sk g E A X) as (fl & Sw & _ & P).
    rewrite (@sweepOf_no_support _ H g sk k _ G) in Sw.
    injection Sw as <- Ec. rewrite <- Ec in P. exact P.
Qed.

(** The case of X7 of an unset axis reference on a null profile. *)
Lemma validation_order_witness :
  let H := Symbolic.host Symbolic.Null None true in
  let f := mkFeature Method.Angle (mkVector3d 1 2 3) (mkVector3d 0 0 1) 360 60
                     Symbolic.noRef Symbolic.noRef false false 3%nat
                     Symbolic.Null Symbolic.Null in
  execute H f =
    (Error (InvalidAxis "No rotation axis reference specified"), mkWorld f []).
Proof.
  intros H f.
  destruct (proj1 (proj2 (@validation_order Symbolic.kernel H f _ _
                            (surjective_pairing _) (conj eq_refl eq_refl)))
                  Symbolic.Null "No rotation axis reference specified"
                  eq_refl eq_refl) as (Er & Ew).
  rewrite (surjective_pairing (execute H f)). now rewrite Er, Ew.
Defined.

(** X8. A run never writes the properties it takes as inputs: the type,
    the two angles, the reference axis, the up-to-face link and the two
    flags are after the run what they were before, whatever its end. *)
Theorem inputs_are_never_written {K : Kernel} (H : Host) (f : Feature)
    (r : DocumentObjectExecReturn) (w : World) :
  execute H f = (r, w) ->
  Type_ (self w) = Type_ f /\ Angle (self w) = Angle f /\
  Angle2 (self w) = Angle2 f /\ ReferenceAxis (self w) = ReferenceAxis f /\
  UpToFace (self w) = UpToFace f /\ Reversed (self w) = Reversed f /\
  Midplane (self w) = Midplane f.
Proof.
  intros E. apply execute_Run in E.
  destruct (Run_self E) as [-> | (g & u & U & ->)]; [repeat split |].
  destruct (apply_keeps u g) as (K1 & _ & _ & K4 & K5 & K6 & K7 & K8 & K9).
  destruct (@updateAxis_fields _ H f g U)
    as (F1 & F2 & F3 & F4 & F5 & F6 & F7 & _).
  repeat split; congruence.
Qed.

(** The case of X8 of a run that fails at the fuse. *)
Lemma inputs_are_never_written_witness :
  let H := Symbolic.host Symbolic.twoFaces (Some (Symbolic.Face 50)) false in
  let f := Symbolic.feature Method.TwoAngles 30 20 true false in
  fst (execute H f) = Error (Caught FusionFailed) /\
  Type_ (self (snd (execute H f))) = Type_ f /\
  Angle2 (self (snd (execute H f))) = Angle2 f.
Proof.
  intros H f. split; [reflexivity |].
  destruct (inputs_are_never_written H f (surjective_pairing _))
    as (E1 & _ & E3 & _).
  exact (conj E1 E3).
Defined.

(** X9. The properties a run derives: a run that stops at the angle, the
    profile or the axis leaves the whole feature as it was; every other
    run, failing or not, leaves [Base] and [Axis] set to the axis just
    resolved, and [Placement] set by [positionByPrevious] unless the
    profile was null. *)
Theorem derived_properties {K : Kernel} (H : Host) (f : Feature)
    (r : DocumentObjectExecReturn) (w : World) :
  execute H f = (r, w) ->
  (AngleOutOfRange r \/ (exists e, r = Error (ProfileInvalid e)) \/
   (exists e, r = Error (InvalidAxis e)) ->
   self w = f) /\
  (forall sk b d,
     inRange f -> getVerifiedFace H = inr sk ->
     getAxis H (getValue (ReferenceAxis f)) (getSubValues (ReferenceAxis f))
               NotParallelWithNormal = inr (b, d) ->
     Base (self w) = b /\ Axis (self w) = d /\
     Placement (self w) =
       if IsNull sk then Placement f else positionByPrevious H (Placement f)).
Proof.
  intros E. pose proof (@execute_Run _ H f r w E) as R. split.
  - intros Early.
    destruct R as [L0 | L0 S0 | e0 I0 V0 | sk0 e0 I0 V0 U0 | sk0 g0 I0 V0 U0 N0
                  | sk0 g0 A0 X0 | sk0 g0 e0 new A0 X0 S1 F
                  | sk0 g0 base result new fl w A0 X0 S1 F P C];
      try reflexivity; exfalso.
    + destruct Early as [[Q | Q] | [(e & Q) | (e & Q)]]; discriminate Q.
    + destruct Early as [[Q | Q] | [(e & Q) | (e & Q)]]; discriminate Q.
    + destruct Early as [[Q | Q] | [(e & Q) | (e & Q)]]; discriminate Q.
    + apply commit_run in C. destruct C as (_ & C).
      destruct fl as [u | r0 | e1]; simpl in Early.
      * destruct Early as [[Q | Q] | [(e & Q) | (e & Q)]]; discriminate Q.
      * destruct C as (-> & _).
        destruct Early as [[Q | Q] | [(e & Q) | (e & Q)]]; discriminate Q.
      * destruct Early as [[Q | Q] | [(e & Q) | (e & Q)]]; discriminate Q.
  - intros sk b d (L & S) V G.
    assert (U : updateAxis H f = inr (set_Base_Axis b d f)).
    { rewrite updateAxis_run, G. reflexivity. }
    destruct R as [L0 | L0 S0 | e0 I0 V0 | sk0 e0 I0 V0 U0 | sk0 g0 I0 V0 U0 N0
                  | sk0 g0 A0 X0 | sk0 g0 e0 new A0 X0 S1 F
                  | sk0 g0 base result new fl w A0 X0 S1 F P C];
      try congruence.
    + assert (sk0 = sk) by congruence.
      assert (g0 = set_Base_Axis b d f) by congruence. subst.
      simpl. rewrite N0. auto.
    + destruct A0 as (_ & V0 & U0 & N0).
      assert (sk0 = sk) by congruence.
      assert (g0 = set_Base_Axis b d f) by congruence. subst.
      simpl. rewrite N0. auto.
    + destruct A0 as (_ & V0 & U0 & N0).
      assert (sk0 = sk) by congruence.
      assert (g0 = set_Base_Axis b d f) by congruence. subst.
      simpl. rewrite N0. auto.
    + destruct A0 as (_ & V0 & U0 & N0).
      assert (sk0 = sk) by congruence.
      assert (g0 = set_Base_Axis b d f) by congruence. subst.
      rewrite N0. apply commit_run in C. destruct C as (_ & C).
      destruct fl as [u | r0 | e1].
      * destruct C as (refined & solid & _ & _ & ->). simpl. auto.
      * destruct C as (_ & _ & ->). simpl. auto.
      * destruct C as [(k & _ & ->) | (_ & refined & _ & ->)]; simpl; auto.
Qed.

(** The case of X9 of a run that fails on an axis across the profile. *)
Lemma derived_properties_witness :
  let H := Symbolic.host (Symbolic.Compound (Symbolic.Face 1) (Symbolic.Face 0))
                         None true in
  let f := mkFeature Method.Angle (mkVector3d 1 2 3) (mkVector3d 0 0 1) 360 60
                     Symbolic.axisRef Symbolic.noRef false false 3%nat
                     Symbolic.Null Symbolic.Null in
  fst (execute H f) = AxisIntersectsProfile /\
  Base (self (snd (execute H f))) = mkVector3d 0 0 0 /\
  Axis (self (snd (execute H f))) = mkVector3d 0 1 0 /\
  Placement (self (snd (execute H f))) = 7%nat.
Proof.
  intros H f. split; [reflexivity |].
  exact (proj2 (@derived_properties Symbolic.kernel H f _ _
                  (surjective_pairing _))
               (Symbolic.Compound (Symbolic.Face 1) (Symbolic.Face 0))
               (mkVector3d 0 0 0) (mkVector3d 0 1 0)
               (conj eq_refl eq_refl) eq_refl eq_refl).
Defined.

Section Inputs.
Context {K : Kernel}.
Variable H : Host.

(** A [try] block that ends well sets the placement and the two shapes,
    whatever the feature held. *)
Lemma tryBody_success f sk base angle angle2 s cs u w :
  tryBody H f sk base angle angle2 (mkWorld s cs) = (Next u, w) ->
  exists refined solid new,
    forall s' cs',
      tryBody H f sk base angle angle2 (mkWorld s' cs') =
      (Next u,
       mkWorld (set_Shape solid
                  (set_AddSubShape refined
                     (set_Placement (positionByPrevious H (Placement f)) s')))
               (cs' ++ new)).
Proof.
  intros R. pose proof R as C. apply tryBody_run in C.
  unfold tryBodyCases in C. cbv zeta in C.
  destruct C as [(_ & Q & _) | (N & [(_ & Q & _) | (X & fl1 & w1 & S & C)])];
    try discriminate Q.
  destruct (logs_sweep H (Type_ f) (UpToFace f) (localFrame H f) (localPnt H f)
              (localDir H f) (Move base (localFrame H f))
              (localSketch H f angle angle2 sk) (sweepAngle f angle angle2 sk))
    as (fl0 & new & L).
  rewrite L in S. injection S as <- <-.
  destruct fl0 as [[b r] | r | e];
    [| destruct C as (Q & _); discriminate Q
     | destruct C as (Q & _); discriminate Q].
  apply commit_success in C.
  destruct C as (refined & solid & _ & _ & _ & _ & Re).
  exists refined, solid, new. intros s' cs'.
  unfold tryBody. cbv zeta. rewrite N.
  unfold localSketch, sweepAngle, localPnt, localDir in *.
  destruct (orient f (axisPnt f) (axisDir f) angle angle2 sk)
    as [sk0 angle0] eqn:O. simpl in *.
  unfold bind at 1. unfold modify at 1. simpl.
  unfold bind at 1. rewrite checkAxis_run, X.
  unfold bind at 1. rewrite L. apply Re.
Qed.

(** The [try] block reads the feature it is given through the type, the
    axis, [Angle], [Midplane], the link [UpToFace] and the placement. *)
Lemma tryBody_inputs f f' sk base angle angle2 :
  Type_ f' = Type_ f -> Base f' = Base f -> Axis f' = Axis f ->
  Angle f' = Angle f -> UpToFace f' = UpToFace f ->
  Midplane f' = Midplane f -> Placement f' = Placement f ->
  tryBody H f' sk base angle angle2 = tryBody H f sk base angle angle2.
Proof.
  intros E1 E2 E3 E4 E5 E6 E7.
  unfold tryBody, orient, axisPnt, axisDir, localFrame.
  rewrite E1, E2, E3, E4, E5, E6, E7. reflexivity.
Qed.

(** Two features that agree on the properties a run takes as inputs run
    alike. *)
Lemma execute_inputs f f' r w :
  Type_ f' = Type_ f -> Angle f' = Angle f -> Angle2 f' = Angle2 f ->
  ReferenceAxis f' = ReferenceAxis f -> UpToFace f' = UpToFace f ->
  Reversed f' = Reversed f -> Midplane f' = Midplane f ->
  Placement f' = Placement f ->
  execute H f = (r, w) ->
  fst (execute H f') = r /\ calls (snd (execute H f')) = calls w /\
  (r = StdReturn -> execute H f' = (StdReturn, w)).
Proof.
  intros E1 E2 E3 E4 E5 E6 E7 E8 E. unfold execute in *.
  rewrite !updateAxis_run in *. rewrite E2, E3, E4.
  destruct (360 <? Angle f).
  { injection E as <- <-. repeat split. discriminate. }
  destruct (toRadians (Angle f) <? Precision_Angular).
  { injection E as <- <-. repeat split. discriminate. }
  destruct (getVerifiedFace H) as [e | sk].
  { injection E as <- <-. repeat split. discriminate. }
  destruct (getAxis H _ _ _) as [e | [b d]].
  { injection E as <- <-. repeat split. discriminate. }
  assert (Ea : reverseAngle f' (toRadians (Angle f)) =
               reverseAngle f (toRadians (Angle f))).
  { unfold reverseAngle. now rewrite E6, E7. }
  rewrite Ea.
  rewrite (@tryBody_inputs (set_Base_Axis b d f) (set_Base_Axis b d f') sk
             (baseShape H) (reverseAngle f (toRadians (Angle f)))
             (toRadians (Angle2 f)) E1 eq_refl eq_refl E2 E5 E7 E8).
  destruct (tryBody H (set_Base_Axis b d f) sk (baseShape H) _ _
                    (mkWorld (set_Base_Axis b d f) [])) as [fl w1] eqn:R.
  destruct (@writes_replay _ _ _ _ _ _ _ (writes_tryBody H _ _ _ _ _) R)
    as (u & new & -> & Re).
  rewrite Re. simpl.
  destruct fl as [u0 | r0 | e0]; injection E as <- <-; simpl.
  - split; [reflexivity |]. split; [reflexivity |]. intros _.
    pose proof R as Rs. apply tryBody_success in Rs.
    destruct Rs as (refined & solid & new' & Rs).
    pose proof (Rs (set_Base_Axis b d f) []) as R1.
    pose proof (Rs (set_Base_Axis b d f') []) as R2.
    rewrite Re in R1, R2.
    injection R1 as -> _. injection R2 as -> _.
    f_equal. f_equal. simpl. unfold set_Shape, set_AddSubShape, set_Placement,
      set_Base_Axis. simpl. now rewrite E1, E2, E3, E4, E5, E6, E7.
  - split; [reflexivity |]. split; [reflexivity |].
    intros Q. apply tryBody_returns in R.
    destruct R as [-> | [-> | ->]]; discriminate Q.
  - split; [reflexivity |]. split; [reflexivity |]. discriminate.
Qed.

Lemma sweep_up_to method link inv pnt dir base sk angle angle' :
  isUpTo method = true ->
  sweep H method link inv pnt dir base sk angle =
  sweep H method link inv pnt dir base sk angle'.
Proof. intros U. unfold sweep. rewrite U. reflexivity. Qed.

End Inputs.

(** X10. A run reads none of the properties it derives: two features that
    agree on the type, the two angles, the reference axis, the up-to-face
    link, the two flags and the placement, and differ in [Base], [Axis],
    [AddSubShape] and [Shape] in any way, give the same return after the
    same revolves, and a successful run leaves the very same feature. *)
Theorem outputs_are_not_read {K : Kernel} (H : Host) (f f' : Feature)
    (r : DocumentObjectExecReturn) (w : World) :
  Type_ f' = Type_ f -> Angle f' = Angle f -> Angle2 f' = Angle2 f ->
  ReferenceAxis f' = ReferenceAxis f -> UpToFace f' = UpToFace f ->
  Reversed f' = Reversed f -> Midplane f' = Midplane f ->
  Placement f' = Placement f ->
  execute H f = (r, w) ->
  fst (execute H f') = r /\ calls (snd (execute H f')) = calls w /\
  (r = StdReturn -> execute H f' = (StdReturn, w)).
Proof.
  intros E1 E2 E3 E4 E5 E6 E7 E8 E.
  exact (@execute_inputs _ H f f' r w E1 E2 E3 E4 E5 E6 E7 E8 E).
Qed.

(** The case of X10 of a feature with a stale axis and stale shapes. *)
Lemma outputs_are_not_read_witness :
  let H := Symbolic.host Symbolic.twoFaces (Some (Symbolic.Face 50)) true in
  let f := Symbolic.feature Method.Angle 360 60 false false in
  let f' := @set_Shape Symbolic.kernel (Symbolic.Face 77)
              (@set_AddSubShape Symbolic.kernel (Symbolic.Face 78)
                 (set_Base_Axis (mkVector3d 9 9 9) (mkVector3d 1 0 0) f)) in
  execute H f' = (StdReturn, snd (execute H f)).
Proof.
  intros H f f'.
  exact (proj2 (proj2 (@outputs_are_not_read Symbolic.kernel H f f' _ _
                         eq_refl eq_refl eq_refl eq_refl eq_refl eq_refl
                         eq_refl eq_refl (surjective_pairing _)))
               eq_refl).
Defined.

(** X11. [suggestReversed] and [execute] do not disturb each other: the
    answer of [suggestReversed] is the same after a run as before it,
    whatever the run's end; and a run on the feature [suggestReversed]
    leaves gives the same return after the same revolves as a run on the
    feature before it, and on success the same feature. *)
Theorem suggestReversed_and_execute {K : Kernel} (H : Host) (f : Feature)
    (r : DocumentObjectExecReturn) (w : World) :
  execute H f = (r, w) ->
  fst (suggestReversed H (self w)) = fst (suggestReversed H f) /\
  fst (execute H (snd (suggestReversed H f))) = r /\
  calls (snd (execute H (snd (suggestReversed H f)))) = calls w /\
  (r = StdReturn -> execute H (snd (suggestReversed H f)) = (StdReturn, w)).
Proof.
  intros E. split.
  - assert (ER : ReferenceAxis (self w) = ReferenceAxis f).
    { pose proof (@execute_Run _ H f r w E) as R.
      destruct (Run_self R) as [-> | (g & u & U & ->)]; [reflexivity |].
      destruct (apply_keeps u g) as (_ & _ & _ & _ & _ & K6 & _).
      destruct (@updateAxis_fields _ H f g U) as (_ & _ & _ & F4 & _).
      congruence. }
    unfold suggestReversed. rewrite !updateAxis_run, ER.
    destruct (getAxis H _ _ _) as [e | [b d]]; reflexivity.
  - assert (Es : snd (suggestReversed H f) = f \/
                 exists b d, snd (suggestReversed H f) = set_Base_Axis b d f).
    { unfold suggestReversed. rewrite updateAxis_run.
      destruct (getAxis H _ _ _) as [e | [b d]]; simpl; eauto. }
    destruct Es as [-> | (b & d & ->)].
    + rewrite E. simpl. split; [reflexivity |]. split; [reflexivity |].
      now intros ->.
    + exact (@execute_inputs _ H f (set_Base_Axis b d f) r w
               eq_refl eq_refl eq_refl eq_refl eq_refl eq_refl eq_refl eq_refl E).
Qed.

(** The case of X11 of a successful run fused with a base shape. *)
Lemma suggestReversed_and_execute_witness :
  let H := Symbolic.host Symbolic.twoFaces (Some (Symbolic.Face 50)) true in
  let f := Symbolic.feature Method.Angle 360 60 false false in
  fst (suggestReversed H (self (snd (execute H f)))) =
    fst (suggestReversed H f) /\
  execute H (snd (suggestReversed H f)) = (StdReturn, snd (execute H f)).
Proof.
  intros H f.
  destruct (@suggestReversed_and_execute Symbolic.kernel H f _ _
              (surjective_pairing _)) as (E1 & _ & _ & E4).
  exact (conj E1 (E4 eq_refl)).
Defined.

(** X13. A revolution up to a face, or up to the first or the last one,
    does not read [Reversed]: with the flag set the other way the run
    gives the same return after the same revolves and leaves the same
    feature, the flag apart. *)
Theorem up_to_ignores_Reversed {K : Kernel} (H : Host) (f : Feature)
    (r : DocumentObjectExecReturn) (w : World) (b : bool) :
  isUpTo (Type_ f) = true ->
  execute H f = (r, w) ->
  execute H (set_Reversed b f) =
  (r, mkWorld (set_Reversed b (self w)) (calls w)).
Proof.
  intros U E. apply (execute_transport H (set_Reversed b)); auto.
  intros b0 d0 sk w0.
  assert (T : Method.eqb (Type_ f) Method.TwoAngles = false).
  { destruct (Type_ f); try reflexivity; discriminate U. }
  unfold tryBody, orient. simpl. rewrite T.
  destruct (Midplane f); simpl;
    rewrite (@sweep_up_to _ H (Type_ f) _ _ _ _ _ _
               (signedAngle (set_Reversed b f)) (signedAngle f) U);
    reflexivity.
Qed.

(** The case of X13 of a revolution up to a face. *)
Lemma up_to_ignores_Reversed_witness :
  let H := Symbolic.host Symbolic.twoFaces (Some (Symbolic.Face 50)) true in
  let f := Cases.upToFace in
  execute H (set_Reversed true f) =
    (fst (execute H f),
     mkWorld (set_Reversed true (self (snd (execute H f))))
             (calls (snd (execute H f)))).
Proof.
  intros H f.
  exact (@up_to_ignores_Reversed Symbolic.kernel H f _ _ true eq_refl
           (surjective_pairing _)).
Defined.

(** X14. [Angle2] is read by the type [TwoAngles] only: with any other
    type its value has no effect on the run, which gives the same return
    after the same revolves and leaves the same feature, [Angle2]
    apart. *)
Theorem Angle2_only_for_two_angles {K : Kernel} (H : Host) (f : Feature)
    (r : DocumentObjectExecReturn) (w : World) (a2 : float) :
  Type_ f <> Method.TwoAngles ->
  execute H f = (r, w) ->
  execute H (set_Angle2 a2 f) =
  (r, mkWorld (set_Angle2 a2 (self w)) (calls w)).
Proof.
  intros T E. apply (execute_transport H (set_Angle2 a2)); auto.
  intros b0 d0 sk w0.
  assert (T' : Method.eqb (Type_ f) Method.TwoAngles = false).
  { destruct (Type_ f); try reflexivity. now elim T. }
  unfold tryBody, orient, signedAngle, reverseAngle. simpl. rewrite T'.
  reflexivity.
Qed.

(** The case of X14 of the type [Angle]. *)
Lemma Angle2_only_for_two_angles_witness :
  let H := Symbolic.host Symbolic.twoFaces (Some (Symbolic.Face 50)) true in
  let f := Symbolic.feature Method.Angle 90 60 true false in
  execute H (set_Angle2 45 f) =
    (StdReturn, mkWorld (set_Angle2 45 (self (snd (execute H f))))
                        (calls (snd (execute H f)))).
Proof.
  intros H f.
  refine (@Angle2_only_for_two_angles Symbolic.kernel H f StdReturn
            (snd (execute H f)) 45 _ eq_refl).
  discriminate.
Defined.

(** X15. After a successful run that issued a revolve, [AddSubShape] is
    the refined shape of the last revolve; and a successful run issues a
    revolve whenever the profile has a face (with none it succeeds only
    up to a face, on the base shape).  The fuse has no part in it:
    whatever the boolean fuse answers, a successful run stores the same
    [AddSubShape] after the same revolves. *)
Theorem AddSubShape_is_last_revolve {K : Kernel} (H : Host) (f : Feature)
    (w : World) :
  execute H f = (StdReturn, w) ->
  exists sk g swept,
    getVerifiedFace H = inr sk /\ updateAxis H f = inr g /\
    refineShapeIfActive H swept = inr (AddSubShape (self w)) /\
    ((exists pre c,
        calls w = pre ++ [c] /\ MakeRevol H c = inr (Some swept)) \/
     (calls w = [] /\ Type_ f = Method.UpToFace /\
      faces (sweptProfile H g sk) = [] /\
      swept = Move (baseShape H) (localFrame H f))) /\
    (faces (sweptProfile H g sk) <> [] -> calls w <> []) /\
    forall fuse w',
      execute (set_Fuse fuse H) f = (StdReturn, w') ->
      AddSubShape (self w') = AddSubShape (self w) /\ calls w' = calls w.
Proof.
  intros E. apply success_inv in E.
  destruct E as (sk & g & base & result & refined & solid & A & X & S & F & P
                 & N & R1 & Es).
  pose proof A as (_ & V & U & _).
  exists sk, g, result. rewrite Es. simpl.
  split; [exact V |]. split; [exact U |]. split; [exact R1 |].
  destruct (@updateAxis_fields _ H f g U)
    as (Ty & _ & _ & _ & _ & _ & _ & Pl & _).
  assert (Last : (exists pre c,
                    calls w = pre ++ [c] /\ MakeRevol H c = inr (Some result)) \/
                 (calls w = [] /\ Type_ f = Method.UpToFace /\
                  faces (sweptProfile H g sk) = [] /\
                  result = Move (baseShape H) (localFrame H f))).
  { destruct P as [(pre & c & Ec & M & _) | (Ec & Ef & Eb & Er)].
    - left. now exists pre, c.
    - right. split; [exact Ec |]. rewrite <- Ty.
      destruct (Type_ g) eqn:Eg; simpl in Er;
        try (subst result; rewrite IsNull_NullShape in N; discriminate N).
      + exfalso. unfold sweepOf in S. rewrite Eg in S.
        rewrite sweep_unsupported in S by reflexivity.
        destruct (getSupportFace H); discriminate S.
      + exfalso. unfold sweepOf in S. rewrite Eg in S.
        rewrite sweep_unsupported in S by reflexivity.
        destruct (getSupportFace H); discriminate S.
      + split; [reflexivity |]. split; [exact Ef |].
        subst result base. unfold localFrame. now rewrite Pl. }
  split; [exact Last |]. split.
  - intros Nf Ec.
    destruct Last as [(pre & c & Ec' & _) | (_ & _ & Ef & _)].
    + rewrite Ec in Ec'. now destruct pre.
    + now apply Nf.
  - intros fuse w' E'. apply success_inv in E'.
    destruct E' as (sk' & g' & base' & result' & refined' & solid' & A' & X'
                    & S' & F' & P' & N' & R1' & Es').
    destruct A' as (_ & V' & U' & _).
    assert (sk' = sk) by (simpl in V'; congruence).
    assert (g' = g) by (change (updateAxis H f = inr g') in U'; congruence).
    subst sk' g'. rewrite sweepOf_set_Fuse in S'.
    change (placed (set_Fuse fuse H) g) with (placed H g) in S'.
    rewrite S in S'. injection S' as <- <- Ec.
    rewrite Es'. simpl in *. split; [congruence | auto].
Qed.

(** The case of X15 with a base shape and a profile of two faces. *)
Lemma AddSubShape_is_last_revolve_witness :
  let H := Symbolic.host Symbolic.twoFaces (Some (Symbolic.Face 50)) true in
  let f := Symbolic.feature Method.Angle 360 60 false false in
  let w := snd (execute H f) in
  exists swept pre c,
    refineShapeIfActive H swept = inr (AddSubShape (self w)) /\
    calls w = pre ++ [c] /\ MakeRevol H c = inr (Some swept).
Proof.
  intros H f w.
  destruct (@AddSubShape_is_last_revolve Symbolic.kernel H f
              (snd (execute H f)) eq_refl)
    as (sk & g & swept & _ & _ & R1 & Last & _).
  destruct Last as [(pre & c & Ec & M) | (Ec & _)]; [| discriminate Ec].
  now exists swept, pre, c.
Defined.
